(** * md-link-inline: reference-style markdown links made inline

    A shallow embedding of [process_file] from [md-link-inline.py] and of the
    three regular-expression calls it is built from:

    - [re.findall(r"^\[([^\]]+)\]:\s*(.+)$", content, re.MULTILINE)]
    - [re.sub(r"\[([^\]]+)\]\[([^\]]+)\]", replace_link, content)]
    - [re.sub(r"^\[([^\]]+)\]:\s*(.+)$", '', updated_content, flags=re.MULTILINE)]

    A Python [str] is a sequence of code points; it is modelled as a list of
    code points in [N].  The dictionary [reference_links] is a [gmap]. *)

From stdpp Require Import base option list gmap strings.
From Stdlib Require Import NArith Lia.

Local Open Scope N_scope.

(** ** Text *)

Definition char := N.
Definition str := list char.

(** A string literal seen as a Python [str] (used for the examples only). *)
Definition py (s : string) : str :=
  map Ascii.N_of_ascii (String.list_ascii_of_string s).

Definition nl : char := 10.        (* "\n" *)
Definition lbracket : char := 91.  (* "[" *)
Definition rbracket : char := 93.  (* "]" *)
Definition colon : char := 58.     (* ":" *)
Definition lparen : char := 40.    (* "(" *)
Definition rparen : char := 41.    (* ")" *)

(** The characters for which [str.isspace] holds, which are also the ones
    matched by [\s] in a [str] pattern. *)
Definition is_space (c : char) : bool :=
  ((9 <=? c) && (c <=? 13)) || ((28 <=? c) && (c <=? 32))
  || (c =? 133) || (c =? 160) || (c =? 5760)
  || ((8192 <=? c) && (c <=? 8202))
  || (c =? 8232) || (c =? 8233) || (c =? 8239) || (c =? 8287) || (c =? 12288).

Definition not_rbracket (c : char) : bool := negb (c =? rbracket).  (* [^\]] *)
Definition not_nl (c : char) : bool := negb (c =? nl).              (* .     *)

(** [str.lstrip], [str.rstrip] and [str.strip] without argument. *)
Fixpoint lstrip (s : str) : str :=
  match s with
  | c :: s' => if is_space c then lstrip s' else s
  | [] => []
  end.

Definition rstrip (s : str) : str := rev (lstrip (rev s)).

Definition strip (s : str) : str := rstrip (lstrip s).

(** ** Regular expression matching

    [span p s] is the greedy run of a character class: the longest prefix of
    [s] whose characters satisfy [p], and what follows it. *)
Fixpoint span (p : char -> bool) (s : str) : str * str :=
  match s with
  | c :: s' =>
      if p c then let '(run, rest) := span p s' in (c :: run, rest)
      else ([], s)
  | [] => ([], [])
  end.

(** A literal character of the pattern. *)
Definition expect (c : char) (s : str) : option str :=
  match s with
  | d :: s' => if d =? c then Some s' else None
  | [] => None
  end.

(** [$] under [re.MULTILINE]: the end of the text or just before a newline. *)
Definition at_eol (s : str) : bool :=
  match s with
  | [] => true
  | c :: _ => c =? nl
  end.

(** [(.+)$]: the greedy run of non-newline characters, at least one. *)
Definition target_eol (s : str) : option (str * str) :=
  let '(target, rest) := span not_nl s in
  match target with
  | [] => None
  | _ :: _ => if at_eol rest then Some (target, rest) else None
  end.

(** [\s*(.+)$]: the star is greedy, so one more whitespace character is
    consumed first and [(.+)$] is tried here only when that fails. *)
Fixpoint ws_target (s : str) : option (str * str) :=
  match s with
  | c :: s' =>
      if is_space c then
        match ws_target s' with
        | Some r => Some r
        | None => target_eol s
        end
      else target_eol s
  | [] => target_eol s
  end.

(** [\[([^\]]+)\]:\s*(.+)$] tried at the head of [s]: the two groups and the
    text after the match. *)
Definition match_def (s : str) : option ((str * str) * str) :=
  s1 ← expect lbracket s;
  let '(key, s2) := span not_rbracket s1 in
  match key with
  | [] => None
  | _ :: _ =>
      s3 ← expect rbracket s2;
      s4 ← expect colon s3;
      '(target, rest) ← ws_target s4;
      Some ((key, target), rest)
  end.

(** [\[([^\]]+)\]\[([^\]]+)\]] tried at the head of [s]. *)
Definition match_link (s : str) : option ((str * str) * str) :=
  s1 ← expect lbracket s;
  let '(text, s2) := span not_rbracket s1 in
  match text with
  | [] => None
  | _ :: _ =>
      s3 ← expect rbracket s2;
      s4 ← expect lbracket s3;
      let '(ref_key, s5) := span not_rbracket s4 in
      match ref_key with
      | [] => None
      | _ :: _ =>
          rest ← expect rbracket s5;
          Some ((text, ref_key), rest)
      end
  end.

(** The two compiled patterns.  The flag says whether the position is at the
    beginning of a line, which is what [^] tests under [re.MULTILINE]. *)
Definition pat_def (bol : bool) (s : str) : option ((str * str) * str) :=
  if bol then match_def s else None.

Definition pat_link (bol : bool) (s : str) : option ((str * str) * str) :=
  match_link s.

(** ** Scanning for non-overlapping matches

    [re.findall] and [re.sub] walk the text from left to right: where the
    pattern matches, the match is taken and the walk goes on after it;
    elsewhere one character is passed over. *)
Record match_obj := MatchObj {
  group0 : str;   (* the matched text *)
  group1 : str;
  group2 : str
}.

Inductive piece :=
  | Lit (c : char)
  | Hit (m : match_obj).

Definition ends_nl (s : str) : bool :=
  match last s with
  | Some c => c =? nl
  | None => false
  end.

Section Scan.
Variable pat : bool -> str -> option ((str * str) * str).

Fixpoint finditer_fuel (fuel : nat) (bol : bool) (s : str) : list piece :=
  match fuel with
  | O => []
  | S fuel' =>
      match pat bol s with
      | Some ((g1, g2), rest) =>
          let g0 := take (length s - length rest)%nat s in
          Hit (MatchObj g0 g1 g2) :: finditer_fuel fuel' (ends_nl g0) rest
      | None =>
          match s with
          | c :: s' => Lit c :: finditer_fuel fuel' (c =? nl) s'
          | [] => []
          end
      end
  end.

Definition finditer_from (bol : bool) (s : str) : list piece :=
  finditer_fuel (S (length s)) bol s.

Definition finditer (s : str) : list piece := finditer_from true s.
End Scan.

(** [re.findall] for a pattern with two groups: the list of pairs. *)
Definition groups_of (ps : list piece) : list (str * str) :=
  omap (fun p => match p with
                 | Hit m => Some (group1 m, group2 m)
                 | Lit _ => None
                 end) ps.

(** [re.sub] with a replacement string that has no back-reference. *)
Definition subst_str (repl : str) (ps : list piece) : str :=
  concat (map (fun p => match p with
                        | Hit _ => repl
                        | Lit c => [c]
                        end) ps).

(** ** Errors *)

Inductive exn := KeyError (key : str).

Inductive result (A : Type) :=
  | Ok (a : A)
  | Raise (e : exn).
Arguments Ok {A} a.
Arguments Raise {A} e.

Definition bind {A B} (r : result A) (f : A -> result B) : result B :=
  match r with
  | Ok a => f a
  | Raise e => Raise e
  end.

Notation "x <~ r ;; k" := (bind r (fun x => k))
  (at level 100, r at next level, right associativity).

(** [re.sub] with a function: it is called on each match in turn, and an
    exception it raises ends the substitution. *)
Fixpoint subst_fn (f : match_obj -> result str) (ps : list piece) : result str :=
  match ps with
  | [] => Ok []
  | Lit c :: ps' => out <~ subst_fn f ps' ;; Ok (c :: out)
  | Hit m :: ps' => r <~ f m ;; out <~ subst_fn f ps' ;; Ok (r ++ out)
  end.

(** ** The program *)

(** [dict(pairs)]: a later pair overwrites an earlier one with the same key. *)
Definition dict (pairs : list (str * str)) : gmap str str :=
  foldl (fun d kv => <[kv.1 := kv.2]> d) ∅ pairs.

(** [d[k]] *)
Definition getitem (d : gmap str str) (k : str) : result str :=
  match d !! k with
  | Some v => Ok v
  | None => Raise (KeyError k)
  end.

(** [k in d] *)
Definition contains_key (d : gmap str str) (k : str) : bool :=
  bool_decide (is_Some (d !! k)).

(** [re.findall(r"^\[([^\]]+)\]:\s*(.+)$", content, re.MULTILINE)] *)
Definition findall_defs (content : str) : list (str * str) :=
  groups_of (finditer pat_def content).

(** [f"[{text}]({url})"] *)
Definition inline_link (text url : str) : str :=
  [lbracket] ++ text ++ [rbracket; lparen] ++ url ++ [rparen].

(** The function given to [re.sub]; [reference_links] is the variable of
    [process_file] that it reads. *)
Definition replace_link (reference_links : gmap str str) (m : match_obj)
  : result str :=
  let text := group1 m in
  let ref_key := group2 m in
  if contains_key reference_links ref_key then
    url <~ getitem reference_links ref_key ;;
    Ok (inline_link text url)
  else Ok (group0 m).

(** [re.sub(r"\[([^\]]+)\]\[([^\]]+)\]", replace_link, content)] *)
Definition sub_links (reference_links : gmap str str) (content : str)
  : result str :=
  subst_fn (replace_link reference_links) (finditer pat_link content).

(** [re.sub(r"^\[([^\]]+)\]:\s*(.+)$", '', updated_content,
    flags=re.MULTILINE)], the replacement being the empty string *)
Definition sub_defs (updated_content : str) : str :=
  subst_str [] (finditer pat_def updated_content).

(** What [process_file] does to the output file: nothing when there is no
    reference definition (it prints "No reference links found to convert."
    and returns), else it writes the converted text (and then appends a line
    to the log).  [content] is the text read from the input file. *)
Inductive outcome :=
  | NoReferenceLinks
  | Written (updated_content : str).

Definition process_file (content : str) : result outcome :=
  let reference_links := dict (findall_defs content) in
  if bool_decide (reference_links = ∅) then Ok NoReferenceLinks
  else
    updated_content <~ sub_links reference_links content ;;
    let updated_content := strip (sub_defs updated_content) in
    Ok (Written updated_content).

(** [duplicate_file] copies the input file to the output file, and [main]
    calls it before [process_file]: [converted_file] is the text of the
    output file when [main] ends. *)
Definition duplicate_file (content : str) : str := content.

Definition converted_file (content : str) : result str :=
  let output_file := duplicate_file content in
  r <~ process_file content ;;
  Ok (match r with
      | NoReferenceLinks => output_file
      | Written updated_content => updated_content
      end).


(** * The script around the conversion

    [validate_file], [duplicate_file], [process_file] with its reading and
    writing, [log_changes] and [main] from the parsed argument on.  The
    input is a file of the working directory, given by its name; a file is
    a text.  What is not modelled: the parsing of the command line,
    directories in the path, files that are not regular files, permissions,
    decoding errors, and the translation of newlines on writing (it is the
    identity where [os.linesep] is a newline). *)
Module Script.

Definition dot : char := 46.  (* "." *)
Definition cr : char := 13.   (* "\r" *)

Definition md_ext : str := py ".md".
Definition converted_tag : str := py "-converted".

Inductive exception :=
  | FileNotFoundError (file_path : str)
  | ValueError (file_path : str)      (* raised by [validate_file] *)
  | EmptyName (file_path : str)       (* the [ValueError] of [with_name] *)
  | Uncaught (e : exn).

Inductive res (A : Type) :=
  | Return (a : A)
  | Throw (e : exception).
Arguments Return {A} a.
Arguments Throw {A} e.

Inductive message :=
  | NoReferenceLinksFound                  (* "No reference links found to convert." *)
  | ChangesLogged                          (* "Changes logged to: ..." *)
  | ConversionCompleted (output_file : str)
  | ErrorMessage (e : exception).

Record world := World {
  files : gmap str str;   (* the regular files of the working directory *)
  log : list str;         (* the lines of [~/md_link_inline.log] *)
  stdout : list message
}.

Definition print (m : message) (w : world) : world :=
  World (files w) (log w) (stdout w ++ [m]).

(** [s.startswith(p)] and [s.endswith(p)] *)
Fixpoint startswith (s p : str) : bool :=
  match p, s with
  | [], _ => true
  | c :: p', d :: s' => (d =? c) && startswith s' p'
  | _ :: _, [] => false
  end.

Definition endswith (s p : str) : bool := startswith (rev s) (rev p).

(** [s.rfind(c)]: the last index of [c], if any. *)
Fixpoint rfind (c : char) (s : str) : option nat :=
  match s with
  | [] => None
  | d :: s' =>
      match rfind c s' with
      | Some i => Some (S i)
      | None => if d =? c then Some O else None
      end
  end.

(** [Path(p).name] for a path without directory: the path itself, except
    that the name of ["."] is empty. *)
Definition path_name (p : str) : str :=
  if bool_decide (p = [dot]) then [] else p.

(** [Path.suffix] and [Path.stem]: the name is cut at its last dot when
    that dot is neither its first nor its last character (the rule of
    [pathlib] up to Python 3.13; later versions differ on names such as
    ["..md"], whose stem is made of dots). *)
Definition has_suffix (name : str) (i : nat) : bool :=
  (0 <? i)%nat && (i <? length name - 1)%nat.

Definition suffix (name : str) : str :=
  match rfind dot name with
  | Some i => if has_suffix name i then drop i name else []
  | None => []
  end.

Definition stem (name : str) : str :=
  match rfind dot name with
  | Some i => if has_suffix name i then take i name else name
  | None => name
  end.

(** [f"{input_path.stem}-converted{input_path.suffix}"] *)
Definition output_name (input_file : str) : str :=
  let name := path_name input_file in
  stem name ++ converted_tag ++ suffix name.

(** [Path.with_name] *)
Definition with_name (p new_name : str) : res str :=
  match path_name p with
  | [] => Throw (EmptyName p)
  | _ :: _ => Return new_name
  end.

(** [open(file, "r")]'s translation of line ends: ["\r\n"] and ["\r"] are
    read as ["\n"]. *)
Fixpoint universal_newlines (s : str) : str :=
  match s with
  | [] => []
  | c :: s' =>
      if c =? cr then
        nl :: match s' with
              | d :: s'' =>
                  if d =? nl then universal_newlines s''
                  else universal_newlines s'
              | [] => []
              end
      else c :: universal_newlines s'
  end.

(** [open(file_path, "r", encoding="utf-8").read()] *)
Definition read_text (w : world) (file_path : str) : res str :=
  match files w !! file_path with
  | Some raw => Return (universal_newlines raw)
  | None => Throw (FileNotFoundError file_path)
  end.

(** [open(file_path, "w", encoding="utf-8").write(text)] *)
Definition write_text (w : world) (file_path text : str) : world :=
  World (<[file_path := text]> (files w)) (log w) (stdout w).

(** [shutil.copy(src, dst)] *)
Definition copy (w : world) (src dst : str) : res world :=
  match files w !! src with
  | Some raw => Return (World (<[dst := raw]> (files w)) (log w) (stdout w))
  | None => Throw (FileNotFoundError src)
  end.

(** [os.path.isfile] *)
Definition isfile (w : world) (file_path : str) : bool :=
  bool_decide (is_Some (files w !! file_path)).

Definition validate_file (w : world) (file_path : str) : res unit :=
  if negb (isfile w file_path) then Throw (FileNotFoundError file_path)
  else if negb (endswith file_path md_ext) then Throw (ValueError file_path)
  else Return tt.

Definition duplicate_file (w : world) (input_file : str) : res (world * str) :=
  match with_name input_file (output_name input_file) with
  | Throw e => Throw e
  | Return output_file =>
      match copy w input_file output_file with
      | Throw e => Throw e
      | Return w' => Return (w', output_file)
      end
  end.

(** The line that [log_changes] appends; the relative path of a file of the
    working directory is its name. *)
Definition log_line (input_file output_file : str) : str :=
  py "Processed file: " ++ input_file ++ py " -> " ++ output_file ++ [nl].

Definition log_changes (w : world) (input_file output_file : str) : world :=
  print ChangesLogged
    (World (files w) (log w ++ [log_line input_file output_file]) (stdout w)).

(** The conversion of the text read, defined above under the name of the
    function. *)
Definition convert_text (content : str) : result outcome := process_file content.

Definition process_file (w : world) (input_file output_file : str) : res world :=
  match read_text w input_file with
  | Throw e => Throw e
  | Return content =>
      match convert_text content with
      | Raise e => Throw (Uncaught e)
      | Ok NoReferenceLinks => Return (print NoReferenceLinksFound w)
      | Ok (Written updated_content) =>
          Return (log_changes (write_text w output_file updated_content)
                    input_file output_file)
      end
  end.

(** [main] once [parse_arguments] has returned [input_file]: the world at
    the end and the exit status. *)
Definition fail (w : world) (e : exception) : world * nat :=
  (print (ErrorMessage e) w, 1%nat).

Definition main (w : world) (input_file : str) : world * nat :=
  match validate_file w input_file with
  | Throw e => fail w e
  | Return _ =>
      match duplicate_file w input_file with
      | Throw e => fail w e
      | Return (w1, output_file) =>
          match process_file w1 input_file output_file with
          | Throw e => fail w1 e
          | Return w2 => (print (ConversionCompleted output_file) w2, 0%nat)
          end
      end
  end.

End Script.

(** * Notions used in the statements *)

(** ** Texts of the two shapes *)

(** The text of a reference-style usage, [[text][ref]]. *)
Definition ref_link (text ref_key : str) : str :=
  [lbracket] ++ text ++ [rbracket; lbracket] ++ ref_key ++ [rbracket].

(** The text of a definition: [[key]:], whitespace, the target. *)
Definition def_text (key ws target : str) : str :=
  [lbracket] ++ key ++ [rbracket; colon] ++ ws ++ target.

Definition all_space (s : str) : Prop := Forall (fun c => is_space c = true) s.

(** [m] occurs in [s]. *)
Definition infix (m s : str) : Prop := exists a b, s = a ++ m ++ b.

(** [s] has a character that is not whitespace. *)
Definition visible (s : str) : bool := existsb (fun c => negb (is_space c)) s.

(** ** The walks of the program *)

(** The walk for the definition pattern, from a position that is
    ([bol = true]) or is not at the beginning of a line. *)
Definition defs_from (bol : bool) (s : str) : list piece :=
  finditer_from pat_def bol s.

(** The walk for the usage pattern; it has no anchor, so the flag plays no
    part. *)
Definition links (s : str) : list piece := finditer pat_link s.

(** [re.findall] and [re.sub] for the definition pattern, from such a
    position. *)
Definition findall_from (bol : bool) (s : str) : list (str * str) :=
  groups_of (defs_from bol s).

Definition strip_defs_from (bol : bool) (s : str) : str :=
  subst_str [] (defs_from bol s).


(** The text after a bracketed key is not a colon followed by a target. *)
Definition no_target (s3 : str) : Prop :=
  forall s4, s3 = colon :: s4 -> ws_target s4 = None.

(** What [\[([^\]]+)\]] has to find after the first bracket pair. *)
Definition link_tail (s3 : str) : option (str * str) :=
  s4 ← expect lbracket s3;
  let '(ref_key, s5) := span not_rbracket s4 in
  match ref_key with
  | [] => None
  | _ :: _ => rest ← expect rbracket s5; Some (ref_key, rest)
  end.


(** ** The value of the substitution of usages

    What [replace_link] returns when it does not raise, and the text that
    [re.sub] builds from it. *)
Definition resolve (reference_links : gmap str str) (m : match_obj) : str :=
  match reference_links !! group2 m with
  | Some url => inline_link (group1 m) url
  | None => group0 m
  end.

Definition piece_text (f : match_obj -> str) (p : piece) : str :=
  match p with
  | Lit c => [c]
  | Hit m => f m
  end.

Definition rewrite_links (reference_links : gmap str str) (s : str) : str :=
  concat (map (piece_text (resolve reference_links)) (links s)).

(** ** Changing matches only *)

(** [links_rewritten d s s'] : [s'] is [s] where some usages [[text][key]]
    whose key is in [d] were replaced by the inline link, and every other
    character was kept. *)
Inductive links_rewritten (d : gmap str str) : str -> str -> Prop :=
  | lr_nil : links_rewritten d [] []
  | lr_keep c s s' :
      links_rewritten d s s' -> links_rewritten d (c :: s) (c :: s')
  | lr_inline t k url s s' :
      t ≠ [] -> rbracket ∉ t -> k ≠ [] -> rbracket ∉ k ->
      d !! k = Some url ->
      links_rewritten d s s' ->
      links_rewritten d (ref_link t k ++ s) (inline_link t url ++ s').

(** [defs_removed s s'] : [s'] is [s] where some texts of the form
    [[key]: target] were removed, and every other character was kept. *)
Inductive defs_removed : str -> str -> Prop :=
  | dr_nil : defs_removed [] []
  | dr_keep c s s' : defs_removed s s' -> defs_removed (c :: s) (c :: s')
  | dr_drop k ws v s s' :
      k ≠ [] -> rbracket ∉ k -> all_space ws -> v ≠ [] -> nl ∉ v ->
      defs_removed s s' ->
      defs_removed (def_text k ws v ++ s) s'.

(** ** Well-formed documents

    A document made of lines of two kinds: a definition [[key]: target], and
    prose, which is text without opening bracket, usages [[text][key]] and
    inline links [[text](url)]. *)
Inductive seg :=
  | Text (t : str)
  | Ref (text key : str)
  | Inline (text url : str).

Inductive line :=
  | DefLine (key ws target : str)
  | Prose (segs : list seg).

Definition render_seg (s : seg) : str :=
  match s with
  | Text t => t
  | Ref text key => ref_link text key
  | Inline text url => inline_link text url
  end.

Definition render_line (l : line) : str :=
  match l with
  | DefLine key ws target => def_text key ws target
  | Prose segs => concat (map render_seg segs)
  end.

(** Lines joined by newlines. *)
Fixpoint unlines (ls : list str) : str :=
  match ls with
  | [] => []
  | [l] => l
  | l :: ls' => l ++ nl :: unlines ls'
  end.

Definition render (doc : list line) : str := unlines (map render_line doc).

Definition lacks (c : char) (s : str) : bool :=
  forallb (fun x => negb (x =? c)) s.

Definition nonempty (s : str) : bool :=
  match s with [] => false | _ :: _ => true end.

Definition starts_visible (s : str) : bool :=
  match s with [] => false | c :: _ => negb (is_space c) end.

(** Text has no opening bracket; the bracket contents of a usage are not
    empty and have no closing bracket; the url of an inline link has no
    opening bracket; nothing contains a newline. *)
Definition wf_seg (s : seg) : bool :=
  match s with
  | Text t => lacks lbracket t && lacks nl t
  | Ref text key =>
      nonempty text && lacks rbracket text && lacks nl text
      && nonempty key && lacks rbracket key && lacks nl key
  | Inline text url =>
      lacks rbracket text && lacks nl text
      && lacks lbracket url && lacks nl url
  end.

(** The key of a definition is not empty and has no closing bracket; the
    target starts with a character that is not whitespace and has no opening
    bracket; nothing contains a newline. *)
Definition wf_line (l : line) : bool :=
  match l with
  | DefLine key ws target =>
      nonempty key && lacks rbracket key && lacks nl key
      && forallb is_space ws && lacks nl ws
      && starts_visible target && lacks nl target && lacks lbracket target
  | Prose segs => forallb wf_seg segs
  end.

Definition wf_doc (doc : list line) : bool := forallb wf_line doc.

(** What the conversion is meant to do, line by line: the definitions in
    order, a usage with a known key made inline, a definition line made
    empty. *)
Definition defs_of (doc : list line) : list (str * str) :=
  omap (fun l => match l with
                 | DefLine key _ target => Some (key, target)
                 | Prose _ => None
                 end) doc.

Definition resolve_seg (d : gmap str str) (s : seg) : seg :=
  match s with
  | Ref text key =>
      match d !! key with
      | Some url => Inline text url
      | None => s
      end
  | _ => s
  end.

Definition rewrite_line (d : gmap str str) (l : line) : line :=
  match l with
  | DefLine _ _ _ => l
  | Prose segs => Prose (map (resolve_seg d) segs)
  end.

Definition blank_def (l : line) : line :=
  match l with
  | DefLine _ _ _ => Prose []
  | Prose _ => l
  end.

Definition convert_line (d : gmap str str) (l : line) : line :=
  blank_def (rewrite_line d l).

Definition convert (doc : list line) : list line :=
  map (convert_line (dict (defs_of doc))) doc.

(** Every usage of the document has a key in the dictionary; no usage is
    left in the document. *)
Definition resolved_seg (d : gmap str str) (s : seg) : bool :=
  match s with
  | Ref _ key => contains_key d key
  | _ => true
  end.

Definition all_resolved (d : gmap str str) (doc : list line) : bool :=
  forallb (fun l => match l with
                    | DefLine _ _ _ => true
                    | Prose segs => forallb (resolved_seg d) segs
                    end) doc.

Definition no_ref_seg (s : seg) : bool :=
  match s with
  | Ref _ _ => false
  | _ => true
  end.

Definition no_ref_line (l : line) : bool :=
  match l with
  | DefLine _ _ _ => false
  | Prose segs => forallb no_ref_seg segs
  end.

(** The walk for the definition pattern over a well-formed document. *)
Definition line_pieces (l : line) : list piece :=
  match l with
  | DefLine key ws target => [Hit (MatchObj (def_text key ws target) key target)]
  | Prose _ => map Lit (render_line l)
  end.

Fixpoint doc_pieces (doc : list line) : list piece :=
  match doc with
  | [] => []
  | [l] => line_pieces l
  | l :: doc' => line_pieces l ++ Lit nl :: doc_pieces doc'
  end.

(** The values of the dictionary have no opening bracket and no newline. *)
Definition good_urls (d : gmap str str) : Prop :=
  forall k u, d !! k = Some u -> (lbracket ∉ u) /\ (nl ∉ u).

(** ** Notions for the further properties *)

(** A match of the walk for the definition pattern in [s]: its text is
    [[key]:], whitespace and the target, and occurs in [s]. *)
Definition def_hit_in (s : str) (p : piece) : Prop :=
  match p with
  | Hit m =>
      exists ws,
        group0 m = def_text (group1 m) ws (group2 m)
        /\ infix (group0 m) s /\ all_space ws
        /\ group1 m ≠ [] /\ (rbracket ∉ group1 m)
        /\ group2 m ≠ [] /\ (nl ∉ group2 m)
        /\ (starts_visible (group2 m) = true \/ all_space (group2 m))
  | Lit _ => True
  end.

(** A line that leaves nothing visible: a definition, or prose made of
    whitespace. *)
Definition blank_seg (s : seg) : bool :=
  match s with
  | Text t => forallb is_space t
  | _ => false
  end.

Definition blank_line (l : line) : bool :=
  match l with
  | DefLine _ _ _ => true
  | Prose segs => forallb blank_seg segs
  end.


(** What a run does on a markdown file that exists. *)
Definition run_files (files : gmap str str) (p raw : str) : gmap str str :=
  match findall_defs (Script.universal_newlines raw) with
  | [] => <[Script.output_name p := raw]> files
  | _ :: _ =>
      <[Script.output_name p :=
          strip (sub_defs
            (rewrite_links
               (dict (findall_defs (Script.universal_newlines raw)))
               (Script.universal_newlines raw)))]> files
  end.

Definition run_log (log : list str) (p raw : str) : list str :=
  match findall_defs (Script.universal_newlines raw) with
  | [] => log
  | _ :: _ => log ++ [Script.log_line p (Script.output_name p)]
  end.

Definition run_stdout (out : list Script.message) (p raw : str)
  : list Script.message :=
  out ++ [match findall_defs (Script.universal_newlines raw) with
          | [] => Script.NoReferenceLinksFound
          | _ :: _ => Script.ChangesLogged
          end;
          Script.ConversionCompleted (Script.output_name p)].

(** * Properties *)

(** ** The examples of the specification *)

Example spec_example :
  converted_file (py "See [OpenAI][openai-ref] for details.

[openai-ref]: https://openai.com")
  = Ok (py "See [OpenAI](https://openai.com) for details.").
Proof. vm_compute. reflexivity. Qed.

Example unresolved_example :
  converted_file (py "See [Foo][bar] and [Baz][baz].

[baz]: https://baz.example")
  = Ok (py "See [Foo][bar] and [Baz](https://baz.example).").
Proof. vm_compute. reflexivity. Qed.

Example no_definition_example :
  process_file (py "Plain text, [a][b] and nothing else.
") = Ok NoReferenceLinks.
Proof. vm_compute. reflexivity. Qed.

(** ** Characters *)

Lemma not_rbracket_true c : not_rbracket c = true <-> c ≠ rbracket.
Proof.
  unfold not_rbracket. rewrite negb_true_iff, N.eqb_neq. reflexivity.
Qed.

Lemma not_nl_true c : not_nl c = true <-> c ≠ nl.
Proof.
  unfold not_nl. rewrite negb_true_iff, N.eqb_neq. reflexivity.
Qed.

(** ** Greedy runs *)

Lemma span_app_eq p s run rest :
  span p s = (run, rest) -> s = run ++ rest.
Proof.
  revert run rest. induction s as [|c s IH]; intros run rest; simpl.
  - intros [= <- <-]. reflexivity.
  - destruct (p c).
    + destruct (span p s) as [r1 r2]. intros [= <- <-].
      simpl. f_equal. apply IH. reflexivity.
    + intros [= <- <-]. reflexivity.
Qed.

Lemma span_run p s run rest :
  span p s = (run, rest) -> Forall (fun c => p c = true) run.
Proof.
  revert run rest. induction s as [|c s IH]; intros run rest; simpl.
  - intros [= <- <-]. constructor.
  - destruct (p c) eqn:Hc.
    + destruct (span p s) as [r1 r2]. intros [= <- <-].
      constructor; [exact Hc | eapply IH; reflexivity].
    + intros [= <- <-]. constructor.
Qed.

Lemma span_rest p s run rest :
  span p s = (run, rest) ->
  match rest with [] => True | c :: _ => p c = false end.
Proof.
  revert run rest. induction s as [|c s IH]; intros run rest; simpl.
  - intros [= <- <-]. exact I.
  - destruct (p c) eqn:Hc.
    + destruct (span p s) as [r1 r2]. intros [= <- <-].
      eapply IH. reflexivity.
    + intros [= <- <-]. exact Hc.
Qed.

Lemma span_intro p run rest :
  Forall (fun c => p c = true) run ->
  match rest with [] => True | c :: _ => p c = false end ->
  span p (run ++ rest) = (run, rest).
Proof.
  intros Hrun Hrest. induction Hrun as [|c run Hc _ IH]; simpl.
  - destruct rest as [|d rest]; simpl; [reflexivity|].
    rewrite Hrest. reflexivity.
  - rewrite Hc, IH. reflexivity.
Qed.

Lemma no_rbracket_run (s : str) :
  rbracket ∉ s <-> Forall (fun c => not_rbracket c = true) s.
Proof.
  rewrite Forall_forall. split.
  - intros H c Hc. apply not_rbracket_true. intros ->. exact (H Hc).
  - intros H Hin. apply H in Hin. apply not_rbracket_true in Hin. congruence.
Qed.

Lemma no_nl_run (s : str) :
  nl ∉ s <-> Forall (fun c => not_nl c = true) s.
Proof.
  rewrite Forall_forall. split.
  - intros H c Hc. apply not_nl_true. intros ->. exact (H Hc).
  - intros H Hin. apply H in Hin. apply not_nl_true in Hin. congruence.
Qed.

Lemma expect_Some c s s' : expect c s = Some s' <-> s = c :: s'.
Proof.
  destruct s as [|d s]; simpl; [split; discriminate|].
  destruct (N.eqb_spec d c) as [->|Hne]; split; intros H; by simplify_eq.
Qed.

Lemma expect_cons c s : expect c (c :: s) = Some s.
Proof. apply expect_Some. reflexivity. Qed.

(** ** The scan has fuel enough

    Both patterns consume at least one character, so the walk over a text
    of length [n] takes at most [n + 1] steps. *)
Section ScanFacts.
Variable pat : bool -> str -> option ((str * str) * str).
Hypothesis pat_shrinks : forall b s g rest,
  pat b s = Some (g, rest) -> (length rest < length s)%nat.

Lemma finditer_fuel_enough n m b s :
  (length s < n)%nat -> (length s < m)%nat ->
  finditer_fuel pat n b s = finditer_fuel pat m b s.
Proof.
  revert m b s. induction n as [|n IH]; intros m b s Hn Hm; [lia|].
  destruct m as [|m]; [lia|]. simpl.
  destruct (pat b s) as [[[g1 g2] rest]|] eqn:Hp.
  - apply pat_shrinks in Hp. f_equal. apply IH; lia.
  - destruct s as [|c s]; [reflexivity|]. simpl in *.
    f_equal. apply IH; lia.
Qed.

Lemma finditer_from_unfold b s :
  finditer_from pat b s =
  match pat b s with
  | Some ((g1, g2), rest) =>
      let g0 := take (length s - length rest)%nat s in
      Hit (MatchObj g0 g1 g2) :: finditer_from pat (ends_nl g0) rest
  | None =>
      match s with
      | c :: s' => Lit c :: finditer_from pat (c =? nl) s'
      | [] => []
      end
  end.
Proof.
  unfold finditer_from at 1. simpl.
  destruct (pat b s) as [[[g1 g2] rest]|] eqn:Hp.
  - apply pat_shrinks in Hp. cbv zeta. f_equal.
    unfold finditer_from. apply finditer_fuel_enough; lia.
  - destruct s as [|c s]; [reflexivity|]. f_equal.
Qed.
End ScanFacts.

(** ** What the two patterns match *)

Ltac norm_app := repeat (progress (simpl; rewrite <- ?app_assoc)).
Ltac norm_app_in H := repeat (progress (simpl in H; rewrite <- ?app_assoc in H)).

Lemma at_eol_span_not_nl s run rest :
  span not_nl s = (run, rest) -> at_eol rest = true.
Proof.
  intros H. apply span_rest in H. destruct rest as [|c rest]; [reflexivity|].
  simpl. unfold not_nl in H. apply negb_false_iff in H. exact H.
Qed.

Lemma target_eol_Some s v rest :
  target_eol s = Some (v, rest) ->
  s = v ++ rest /\ v ≠ [] /\ (nl ∉ v) /\ at_eol rest = true.
Proof.
  unfold target_eol. destruct (span not_nl s) as [run r] eqn:Hs.
  destruct run as [|c run]; [discriminate|].
  rewrite (at_eol_span_not_nl _ _ _ Hs). intros [= <- <-].
  split; [exact (span_app_eq _ _ _ _ Hs)|].
  split; [discriminate|].
  split; [apply no_nl_run; exact (span_run _ _ _ _ Hs)|].
  exact (at_eol_span_not_nl _ _ _ Hs).
Qed.

Lemma target_eol_intro v rest :
  v ≠ [] -> nl ∉ v -> at_eol rest = true ->
  target_eol (v ++ rest) = Some (v, rest).
Proof.
  intros Hne Hnl Hrest. unfold target_eol.
  rewrite (span_intro not_nl v rest).
  - destruct v; [congruence|]. rewrite Hrest. reflexivity.
  - apply no_nl_run. exact Hnl.
  - destruct rest as [|c rest]; [exact I|]. simpl in Hrest.
    unfold not_nl. rewrite Hrest. reflexivity.
Qed.

Lemma target_eol_None s : target_eol s = None <-> at_eol s = true.
Proof.
  unfold target_eol. destruct s as [|c s]; simpl; [tauto|].
  unfold not_nl at 1. destruct (c =? nl) eqn:Hc; simpl; [tauto|].
  destruct (span not_nl s) as [run r] eqn:Hs.
  rewrite (at_eol_span_not_nl _ _ _ Hs). split; discriminate.
Qed.

Lemma ws_target_Some s v rest :
  ws_target s = Some (v, rest) ->
  exists ws, s = ws ++ v ++ rest /\ all_space ws /\
             v ≠ [] /\ (nl ∉ v) /\ at_eol rest = true.
Proof.
  assert (Hbase : forall s, target_eol s = Some (v, rest) ->
            exists ws, s = ws ++ v ++ rest /\ all_space ws /\
                       v ≠ [] /\ (nl ∉ v) /\ at_eol rest = true).
  { intros s0 H. apply target_eol_Some in H. destruct H as (-> & Hv).
    exists []. split; [reflexivity|]. split; [constructor|exact Hv]. }
  induction s as [|c s IH]; simpl; [apply Hbase|].
  destruct (is_space c) eqn:Hc; [|apply Hbase].
  destruct (ws_target s) as [[v' rest']|] eqn:Hw; [|apply Hbase].
  intros [= -> ->]. destruct (IH eq_refl) as (ws & -> & Hws & Hv).
  exists (c :: ws). split; [reflexivity|].
  split; [constructor; assumption|exact Hv].
Qed.

(** After the whitespace, a target that starts with a character which is not
    whitespace is taken whole: no backtracking happens. *)
Lemma ws_target_intro ws c v rest :
  all_space ws -> is_space c = false -> nl ∉ (c :: v) -> at_eol rest = true ->
  ws_target (ws ++ (c :: v) ++ rest) = Some (c :: v, rest).
Proof.
  intros Hws Hc Hnl Hrest. induction Hws as [|d ws Hd _ IH]; simpl.
  - rewrite Hc. apply (target_eol_intro (c :: v)); [discriminate|assumption..].
  - rewrite Hd. simpl in IH. rewrite IH. reflexivity.
Qed.

(** [\s*(.+)$] fails exactly on a run of newlines up to the end of the text. *)
Lemma ws_target_None s : ws_target s = None <-> Forall (fun c => c = nl) s.
Proof.
  induction s as [|c s IH]; simpl.
  - split; [constructor|reflexivity].
  - destruct (is_space c) eqn:Hc.
    + destruct (ws_target s) as [r|] eqn:Hw.
      * split; [discriminate|]. intros H. inversion H; subst.
        apply IH in H3. discriminate.
      * rewrite target_eol_None. simpl. rewrite N.eqb_eq. split.
        -- intros ->. constructor; [reflexivity|]. apply IH. reflexivity.
        -- intros H. inversion H. assumption.
    + rewrite target_eol_None. simpl. rewrite N.eqb_eq. split.
      * intros ->. discriminate.
      * intros H. inversion H. assumption.
Qed.

Lemma match_def_Some s k v rest :
  match_def s = Some ((k, v), rest) ->
  exists ws, s = def_text k ws v ++ rest /\ k ≠ [] /\ (rbracket ∉ k) /\
             all_space ws /\ v ≠ [] /\ (nl ∉ v) /\ at_eol rest = true.
Proof.
  unfold match_def. destruct (expect lbracket s) as [s1|] eqn:H1; [|discriminate].
  apply expect_Some in H1. subst s. simpl.
  destruct (span not_rbracket s1) as [key s2] eqn:Hk.
  destruct key as [|k0 key]; [discriminate|].
  destruct (expect rbracket s2) as [s3|] eqn:H3; [|discriminate].
  apply expect_Some in H3. subst s2. simpl.
  destruct (expect colon s3) as [s4|] eqn:H4; [|discriminate].
  apply expect_Some in H4. subst s3. simpl.
  destruct (ws_target s4) as [[v' rest']|] eqn:Hw; [|discriminate].
  simpl. intros [= <- <- <-].
  apply ws_target_Some in Hw. destruct Hw as (ws & -> & Hws & Hv).
  exists ws. split.
  - unfold def_text. rewrite (span_app_eq _ _ _ _ Hk). norm_app. reflexivity.
  - split; [discriminate|]. split; [|tauto].
    apply no_rbracket_run. exact (span_run _ _ _ _ Hk).
Qed.

Lemma match_def_intro k ws c v rest :
  k ≠ [] -> rbracket ∉ k -> all_space ws ->
  is_space c = false -> nl ∉ (c :: v) -> at_eol rest = true ->
  match_def (def_text k ws (c :: v) ++ rest) = Some ((k, c :: v), rest).
Proof.
  intros Hk Hrb Hws Hc Hnl Hrest. unfold match_def, def_text. simpl.
  rewrite <- !app_assoc.
  rewrite (span_intro not_rbracket k);
    [|apply no_rbracket_run; exact Hrb|reflexivity].
  destruct k as [|k0 k]; [congruence|]. simpl.
  rewrite <- app_assoc.
  rewrite (ws_target_intro ws c v rest); [reflexivity|assumption..].
Qed.

Lemma match_link_Some s t k rest :
  match_link s = Some ((t, k), rest) ->
  s = ref_link t k ++ rest /\ t ≠ [] /\ (rbracket ∉ t) /\ k ≠ [] /\ (rbracket ∉ k).
Proof.
  unfold match_link. destruct (expect lbracket s) as [s1|] eqn:H1; [|discriminate].
  apply expect_Some in H1. subst s. simpl.
  destruct (span not_rbracket s1) as [text s2] eqn:Ht.
  destruct text as [|t0 text]; [discriminate|].
  destruct (expect rbracket s2) as [s3|] eqn:H3; [|discriminate].
  apply expect_Some in H3. subst s2. simpl.
  destruct (expect lbracket s3) as [s4|] eqn:H4; [|discriminate].
  apply expect_Some in H4. subst s3. simpl.
  destruct (span not_rbracket s4) as [key s5] eqn:Hk.
  destruct key as [|k0 key]; [discriminate|].
  destruct (expect rbracket s5) as [s6|] eqn:H6; [|discriminate].
  apply expect_Some in H6. subst s5. simpl. intros [= <- <- <-].
  split.
  - unfold ref_link. rewrite (span_app_eq _ _ _ _ Ht), (span_app_eq _ _ _ _ Hk).
    norm_app. reflexivity.
  - split; [discriminate|]. split.
    { apply no_rbracket_run. exact (span_run _ _ _ _ Ht). }
    split; [discriminate|].
    apply no_rbracket_run. exact (span_run _ _ _ _ Hk).
Qed.

Lemma match_link_intro t k rest :
  t ≠ [] -> rbracket ∉ t -> k ≠ [] -> rbracket ∉ k ->
  match_link (ref_link t k ++ rest) = Some ((t, k), rest).
Proof.
  intros Ht Htr Hk Hkr. unfold match_link, ref_link. simpl.
  rewrite <- !app_assoc.
  rewrite (span_intro not_rbracket t);
    [|apply no_rbracket_run; exact Htr|reflexivity].
  destruct t as [|t0 t]; [congruence|]. simpl.
  rewrite <- !app_assoc.
  rewrite (span_intro not_rbracket k);
    [|apply no_rbracket_run; exact Hkr|reflexivity].
  destruct k as [|k0 k]; [congruence|]. reflexivity.
Qed.

(** ** The scans of the program, step by step *)

Lemma pat_def_shrinks b s g rest :
  pat_def b s = Some (g, rest) -> (length rest < length s)%nat.
Proof.
  destruct b; [|discriminate]. destruct g as [k v]. simpl. intros H.
  apply match_def_Some in H. destruct H as (ws & -> & _).
  rewrite length_app. unfold def_text. simpl. lia.
Qed.

Lemma pat_link_shrinks b s g rest :
  pat_link b s = Some (g, rest) -> (length rest < length s)%nat.
Proof.
  destruct g as [t k]. unfold pat_link. intros H.
  apply match_link_Some in H. destruct H as (-> & _).
  rewrite length_app. unfold ref_link. simpl. lia.
Qed.

Lemma take_matched (m rest : str) :
  take (length (m ++ rest) - length rest)%nat (m ++ rest) = m.
Proof.
  rewrite length_app. replace (length m + length rest - length rest)%nat
    with (length m) by lia.
  apply take_app_length.
Qed.

Lemma ends_nl_app_cons s c v : ends_nl (s ++ c :: v) = ends_nl (c :: v).
Proof.
  unfold ends_nl. rewrite last_app. simpl last at 1.
  destruct (last (c :: v)) eqn:H; [reflexivity|].
  apply last_None in H. discriminate.
Qed.

Lemma ends_nl_no_nl v : nl ∉ v -> ends_nl v = false.
Proof.
  unfold ends_nl. destruct (last v) as [c|] eqn:H; [|reflexivity].
  intros Hnl. apply N.eqb_neq. intros ->. apply Hnl.
  apply last_Some in H. destruct H as [l' ->]. apply elem_of_app. right.
  apply list_elem_of_singleton. reflexivity.
Qed.

Lemma ends_nl_def_text k ws v :
  v ≠ [] -> nl ∉ v -> ends_nl (def_text k ws v) = false.
Proof.
  intros Hv Hnl. destruct v as [|c v]; [congruence|].
  unfold def_text. rewrite !app_assoc, ends_nl_app_cons.
  apply ends_nl_no_nl. exact Hnl.
Qed.

Lemma defs_from_nil b : defs_from b [] = [].
Proof. destruct b; reflexivity. Qed.

Lemma defs_from_hit s k v rest :
  match_def s = Some ((k, v), rest) ->
  exists ws, s = def_text k ws v ++ rest /\
    defs_from true s
    = Hit (MatchObj (def_text k ws v) k v) :: defs_from false rest.
Proof.
  intros H. destruct (match_def_Some _ _ _ _ H) as (ws & Hs & _ & _ & _ & Hv & Hnl & _).
  exists ws. split; [exact Hs|]. unfold defs_from.
  rewrite (finditer_from_unfold _ pat_def_shrinks). simpl. rewrite H.
  cbv zeta. subst s. rewrite take_matched, ends_nl_def_text by assumption.
  reflexivity.
Qed.

Lemma defs_from_miss b c s :
  pat_def b (c :: s) = None ->
  defs_from b (c :: s) = Lit c :: defs_from (c =? nl) s.
Proof.
  intros H. unfold defs_from.
  rewrite (finditer_from_unfold _ pat_def_shrinks), H. reflexivity.
Qed.

Lemma defs_from_false c s :
  defs_from false (c :: s) = Lit c :: defs_from (c =? nl) s.
Proof. apply defs_from_miss. reflexivity. Qed.

Lemma links_fuel_flag n b b' s :
  finditer_fuel pat_link n b s = finditer_fuel pat_link n b' s.
Proof.
  destruct n as [|n]; reflexivity.
Qed.

Lemma links_from b s : finditer_from pat_link b s = links s.
Proof. apply links_fuel_flag. Qed.

Lemma links_hit t k rest :
  t ≠ [] -> rbracket ∉ t -> k ≠ [] -> rbracket ∉ k ->
  links (ref_link t k ++ rest)
  = Hit (MatchObj (ref_link t k) t k) :: links rest.
Proof.
  intros Ht Htr Hk Hkr. unfold links, finditer.
  rewrite (finditer_from_unfold _ pat_link_shrinks). unfold pat_link at 1.
  rewrite match_link_intro by assumption. cbv zeta.
  rewrite take_matched, links_from. reflexivity.
Qed.

Lemma links_miss c s :
  match_link (c :: s) = None -> links (c :: s) = Lit c :: links s.
Proof.
  intros H. unfold links, finditer.
  rewrite (finditer_from_unfold _ pat_link_shrinks). unfold pat_link at 1.
  rewrite H, links_from. reflexivity.
Qed.

Lemma links_unfold s :
  links s =
  match match_link s with
  | Some ((t, k), rest) => Hit (MatchObj (ref_link t k) t k) :: links rest
  | None => match s with c :: s' => Lit c :: links s' | [] => [] end
  end.
Proof.
  destruct (match_link s) as [[[t k] rest]|] eqn:H.
  - destruct (match_link_Some _ _ _ _ H) as (-> & Ht & Htr & Hk & Hkr).
    apply links_hit; assumption.
  - destruct s as [|c s]; [reflexivity|]. apply links_miss. exact H.
Qed.

Lemma subst_str_lits repl (s : str) : subst_str repl (map Lit s) = s.
Proof.
  induction s as [|c s IH]; [reflexivity|].
  change (subst_str repl (map Lit (c :: s)))
    with (c :: subst_str repl (map Lit s)).
  rewrite IH. reflexivity.
Qed.

Lemma subst_str_app repl ps qs :
  subst_str repl (ps ++ qs) = subst_str repl ps ++ subst_str repl qs.
Proof. unfold subst_str. rewrite map_app, concat_app. reflexivity. Qed.

Lemma groups_of_lits (s : str) : groups_of (map Lit s) = [].
Proof. induction s as [|c s IH]; [reflexivity|exact IH]. Qed.

Lemma groups_of_app ps qs :
  groups_of (ps ++ qs) = groups_of ps ++ groups_of qs.
Proof. apply omap_app. Qed.

Lemma findall_defs_from s : findall_defs s = findall_from true s.
Proof. reflexivity. Qed.

Lemma sub_defs_from s : sub_defs s = strip_defs_from true s.
Proof. reflexivity. Qed.

Lemma findall_from_nil b : findall_from b [] = [].
Proof. unfold findall_from. rewrite defs_from_nil. reflexivity. Qed.

Lemma strip_defs_from_nil b : strip_defs_from b [] = [].
Proof. unfold strip_defs_from. rewrite defs_from_nil. reflexivity. Qed.

Lemma findall_from_miss b c s :
  pat_def b (c :: s) = None ->
  findall_from b (c :: s) = findall_from (c =? nl) s.
Proof.
  intros H. unfold findall_from. rewrite defs_from_miss by exact H. reflexivity.
Qed.

Lemma strip_defs_from_miss b c s :
  pat_def b (c :: s) = None ->
  strip_defs_from b (c :: s) = c :: strip_defs_from (c =? nl) s.
Proof.
  intros H. unfold strip_defs_from. rewrite defs_from_miss by exact H.
  reflexivity.
Qed.

Lemma findall_from_hit s k v rest :
  match_def s = Some ((k, v), rest) ->
  findall_from true s = (k, v) :: findall_from false rest.
Proof.
  intros H. destruct (defs_from_hit _ _ _ _ H) as (ws & _ & Heq).
  unfold findall_from. rewrite Heq. reflexivity.
Qed.

Lemma strip_defs_from_hit s k v rest :
  match_def s = Some ((k, v), rest) ->
  strip_defs_from true s = strip_defs_from false rest.
Proof.
  intros H. destruct (defs_from_hit _ _ _ _ H) as (ws & _ & Heq).
  unfold strip_defs_from. rewrite Heq. reflexivity.
Qed.

(** ** Where the definition pattern cannot match *)

Lemma match_def_head c s : c ≠ lbracket -> match_def (c :: s) = None.
Proof.
  intros Hc. unfold match_def. simpl.
  destruct (N.eqb_spec c lbracket); [contradiction|reflexivity].
Qed.

Lemma match_def_key k s3 :
  rbracket ∉ k ->
  match_def (lbracket :: k ++ rbracket :: s3) =
  match k with
  | [] => None
  | _ :: _ =>
      s4 ← expect colon s3;
      '(target, rest) ← ws_target s4;
      Some ((k, target), rest)
  end.
Proof.
  intros Hk. unfold match_def. rewrite expect_cons. simpl.
  rewrite (span_intro not_rbracket k (rbracket :: s3));
    [|apply no_rbracket_run; exact Hk|reflexivity].
  destruct k; [reflexivity|]. rewrite expect_cons. reflexivity.
Qed.

Lemma match_def_no_rbracket s : rbracket ∉ s -> match_def s = None.
Proof.
  intros Hs. destruct (match_def s) as [[[k v] rest]|] eqn:H; [|reflexivity].
  apply match_def_Some in H. destruct H as (ws & -> & _).
  exfalso. apply Hs. unfold def_text. norm_app.
  apply elem_of_cons. right. apply elem_of_app. right.
  apply elem_of_cons. left. reflexivity.
Qed.

Lemma defs_from_no_rbracket b s :
  rbracket ∉ s -> defs_from b s = map Lit s.
Proof.
  revert b. induction s as [|c s IH]; intros b Hs; [apply defs_from_nil|].
  apply not_elem_of_cons in Hs as Hs'. destruct Hs' as [_ Hs'].
  rewrite defs_from_miss.
  - simpl. f_equal. apply IH. exact Hs'.
  - destruct b; [|reflexivity]. simpl. apply match_def_no_rbracket. exact Hs.
Qed.

Lemma match_def_no_target k s3 :
  rbracket ∉ k -> no_target s3 ->
  match_def (lbracket :: k ++ rbracket :: s3) = None.
Proof.
  intros Hk Hs3. rewrite match_def_key by exact Hk.
  destruct k; [reflexivity|].
  destruct (expect colon s3) as [s4|] eqn:H4; [|reflexivity].
  apply expect_Some in H4. simpl. rewrite (Hs3 _ H4). reflexivity.
Qed.

Lemma defs_from_no_target b k s3 :
  rbracket ∉ k -> no_target s3 ->
  defs_from b (k ++ rbracket :: s3)
  = map Lit (k ++ [rbracket]) ++ defs_from false s3.
Proof.
  intros Hk Hs3. revert b. induction k as [|c k IH]; intros b.
  - simpl. rewrite defs_from_miss; [reflexivity|].
    destruct b; [|reflexivity]. simpl. apply match_def_head. discriminate.
  - apply not_elem_of_cons in Hk as [Hc Hk]. norm_app.
    rewrite defs_from_miss; [f_equal; apply IH; exact Hk|].
    destruct b; [|reflexivity]. simpl.
    destruct (N.eq_dec c lbracket) as [->|Hne].
    + apply match_def_no_target; assumption.
    + apply match_def_head. exact Hne.
Qed.

Lemma no_target_cases s3 :
  no_target s3 ->
  match s3 with
  | [] => True
  | c :: s4 => c ≠ colon \/ Forall (fun c => c = nl) s4
  end.
Proof.
  intros H. destruct s3 as [|c s4]; [exact I|].
  destruct (N.eq_dec c colon) as [->|Hne]; [right|left; exact Hne].
  apply ws_target_None. apply H. reflexivity.
Qed.

Lemma all_nl_no_rbracket (s : str) :
  Forall (fun c => c = nl) s -> rbracket ∉ s.
Proof.
  intros H Hin. rewrite Forall_forall in H. apply H in Hin. discriminate.
Qed.

Lemma strip_defs_no_target s3 :
  no_target s3 -> no_target (strip_defs_from false s3).
Proof.
  intros H. pose proof (no_target_cases _ H) as Hc.
  destruct s3 as [|c s4]; [rewrite strip_defs_from_nil; intros s4; discriminate|].
  rewrite strip_defs_from_miss by reflexivity.
  intros s5 [= -> <-]. destruct Hc as [Hc|Hc]; [congruence|].
  unfold strip_defs_from.
  rewrite defs_from_no_rbracket by (apply all_nl_no_rbracket; exact Hc).
  rewrite subst_str_lits. apply ws_target_None. exact Hc.
Qed.

Lemma match_def_None_key c k s3 :
  rbracket ∉ (c :: k) ->
  match_def (lbracket :: (c :: k) ++ rbracket :: s3) = None -> no_target s3.
Proof.
  intros Hk H. rewrite match_def_key in H by exact Hk.
  intros s4 ->. rewrite expect_cons in H. simpl in H.
  destruct (ws_target s4) as [[v rest]|]; [discriminate|reflexivity].
Qed.

(** A position where the pattern fails still fails once the definitions
    further on have been removed. *)
Lemma match_def_None_stripped s :
  match_def (lbracket :: s) = None ->
  match_def (lbracket :: strip_defs_from false s) = None.
Proof.
  intros H. destruct (span not_rbracket s) as [k s2] eqn:Hspan.
  pose proof (span_app_eq _ _ _ _ Hspan) as ->.
  pose proof (proj2 (no_rbracket_run k) (span_run _ _ _ _ Hspan)) as Hk.
  pose proof (span_rest _ _ _ _ Hspan) as Hrest.
  destruct s2 as [|c s3].
  - rewrite app_nil_r in *. unfold strip_defs_from.
    rewrite defs_from_no_rbracket, subst_str_lits by exact Hk. exact H.
  - unfold not_rbracket in Hrest. apply negb_false_iff, N.eqb_eq in Hrest.
    subst c. destruct k as [|c k].
    + simpl. rewrite strip_defs_from_miss by reflexivity.
      apply (match_def_key [] _). apply not_elem_of_nil.
    + pose proof (match_def_None_key _ _ _ Hk H) as Hnt.
      unfold strip_defs_from. rewrite defs_from_no_target by assumption.
      rewrite subst_str_app, subst_str_lits. rewrite <- app_assoc.
      apply match_def_no_target; [exact Hk|].
      apply strip_defs_no_target. exact Hnt.
Qed.

Lemma pat_def_None_stripped b c s :
  pat_def b (c :: s) = None ->
  pat_def b (c :: strip_defs_from (c =? nl) s) = None.
Proof.
  destruct b; [|reflexivity]. simpl. intros H.
  destruct (N.eq_dec c lbracket) as [->|Hne].
  - apply match_def_None_stripped. exact H.
  - apply match_def_head. exact Hne.
Qed.

(** After [re.sub] has removed the definitions, [re.findall] finds none. *)
Lemma findall_stripped_upto n :
  forall s b, (length s <= n)%nat ->
    findall_from b (strip_defs_from b s) = [].
Proof.
  induction n as [|n IH]; intros s b Hlen.
  - destruct s; [|simpl in Hlen; lia].
    rewrite strip_defs_from_nil. apply findall_from_nil.
  - destruct (pat_def b s) as [[[k v] rest]|] eqn:Hp.
    + destruct b; [simpl in Hp|discriminate].
      rewrite (strip_defs_from_hit _ _ _ _ Hp).
      pose proof (pat_def_shrinks true _ _ _ Hp) as Hshort.
      apply match_def_Some in Hp. destruct Hp as (ws & _ & _ & _ & _ & _ & _ & Heol).
      destruct rest as [|c rest].
      { rewrite strip_defs_from_nil. apply findall_from_nil. }
      simpl in Heol. apply N.eqb_eq in Heol. subst c.
      rewrite strip_defs_from_miss by reflexivity.
      rewrite findall_from_miss by (apply match_def_head; discriminate).
      apply IH. simpl in Hshort. lia.
    + destruct s as [|c s].
      { rewrite strip_defs_from_nil. apply findall_from_nil. }
      rewrite strip_defs_from_miss by exact Hp.
      rewrite findall_from_miss by (apply pat_def_None_stripped; exact Hp).
      apply IH. simpl in Hlen. lia.
Qed.

Lemma findall_stripped b s : findall_from b (strip_defs_from b s) = [].
Proof. apply (findall_stripped_upto (length s)). reflexivity. Qed.

(** Dropping text at either end of a text without definitions leaves a text
    without definitions, except that a new beginning of line appears at the
    front. *)
Lemma findall_nil_miss b c s :
  findall_from b (c :: s) = [] ->
  pat_def b (c :: s) = None /\ findall_from (c =? nl) s = [].
Proof.
  intros H. destruct (pat_def b (c :: s)) as [[[k v] rest]|] eqn:Hp.
  - destruct b; [simpl in Hp|discriminate].
    rewrite (findall_from_hit _ _ _ _ Hp) in H. discriminate.
  - split; [reflexivity|]. rewrite findall_from_miss in H by exact Hp. exact H.
Qed.

Lemma findall_nil_false b s :
  findall_from b s = [] -> findall_from false s = [].
Proof.
  destruct s as [|c s]; [intros _; apply findall_from_nil|].
  intros H. apply findall_nil_miss in H as [_ H].
  rewrite findall_from_miss by reflexivity. exact H.
Qed.

Lemma findall_nil_lstrip b s :
  findall_from b s = [] -> findall_from false (lstrip s) = [].
Proof.
  revert b. induction s as [|c s IH]; intros b H; [apply findall_from_nil|].
  simpl. destruct (is_space c).
  - apply findall_nil_miss in H as [_ H]. exact (IH _ H).
  - exact (findall_nil_false _ _ H).
Qed.

Lemma match_def_extend s r :
  match_def s ≠ None -> match_def (s ++ r) ≠ None.
Proof.
  destruct (match_def s) as [[[k v] rest]|] eqn:H; [intros _|congruence].
  apply match_def_Some in H.
  destruct H as (ws & -> & Hk & Hrb & _ & Hv & Hnl & _).
  unfold def_text. norm_app. rewrite match_def_key by exact Hrb.
  destruct k as [|k0 k]; [congruence|]. rewrite expect_cons. simpl.
  destruct (ws_target (ws ++ v ++ rest ++ r)) as [[v' rest']|] eqn:Hw;
    [discriminate|].
  exfalso. apply ws_target_None in Hw.
  apply Forall_app in Hw as [_ Hw]. apply Forall_app in Hw as [Hw _].
  destruct v as [|c v]; [congruence|]. inversion Hw; subst.
  apply Hnl. apply elem_of_cons. left. reflexivity.
Qed.

Lemma findall_nil_prefix b s r :
  findall_from b (s ++ r) = [] -> findall_from b s = [].
Proof.
  revert b. induction s as [|c s IH]; intros b H; [apply findall_from_nil|].
  simpl in H. apply findall_nil_miss in H as [Hp H].
  rewrite findall_from_miss; [exact (IH _ H)|].
  destruct b; [simpl in *|reflexivity].
  destruct (match_def (c :: s)) eqn:Hm; [|reflexivity].
  exfalso. apply (match_def_extend (c :: s) r); [congruence|exact Hp].
Qed.

Lemma lstrip_suffix s : exists ws, s = ws ++ lstrip s /\ all_space ws.
Proof.
  induction s as [|c s IH]; [exists []; split; [reflexivity|constructor]|].
  simpl. destruct (is_space c) eqn:Hc.
  - destruct IH as (ws & Hs & Hws). exists (c :: ws).
    split; [simpl; congruence|constructor; assumption].
  - exists []. split; [reflexivity|constructor].
Qed.

Lemma rstrip_prefix s : exists ws, s = rstrip s ++ ws /\ all_space ws.
Proof.
  unfold rstrip. destruct (lstrip_suffix (rev s)) as (ws & Hs & Hws).
  exists (rev ws). split.
  - rewrite <- rev_app_distr, <- Hs, rev_involutive. reflexivity.
  - apply Forall_rev. exact Hws.
Qed.

Lemma findall_nil_strip b s :
  findall_from b s = [] -> findall_from false (strip s) = [].
Proof.
  intros H. apply findall_nil_lstrip in H. unfold strip.
  destruct (rstrip_prefix (lstrip s)) as (ws & Hs & _).
  rewrite Hs in H. exact (findall_nil_prefix _ _ _ H).
Qed.

(** ** The dictionary of definitions *)

Lemma dict_snoc pairs k v : dict (pairs ++ [(k, v)]) = <[k := v]> (dict pairs).
Proof. unfold dict. rewrite foldl_app. reflexivity. Qed.

Lemma dict_empty_iff pairs : dict pairs = ∅ <-> pairs = [].
Proof.
  split; [|intros ->; reflexivity].
  destruct pairs as [|p pairs] using rev_ind; [reflexivity|].
  destruct p as [k v]. rewrite dict_snoc. intros H.
  exfalso. exact (insert_non_empty _ _ _ H).
Qed.


Lemma dict_lookup_Some pairs k v :
  dict pairs !! k = Some v -> (k, v) ∈ pairs.
Proof.
  induction pairs as [|[k' v'] pairs IH] using rev_ind.
  - unfold dict. simpl. rewrite lookup_empty. discriminate.
  - rewrite dict_snoc. destruct (decide (k' = k)) as [->|Hne].
    + rewrite lookup_insert_eq. intros [= ->].
      apply elem_of_app. right. apply list_elem_of_singleton. reflexivity.
    + rewrite lookup_insert_ne by exact Hne. intros H.
      apply elem_of_app. left. apply IH. exact H.
Qed.

(** ** The substitution never raises

    [replace_link] reads [reference_links[ref_key]] only after the test
    [ref_key in reference_links]. *)

Lemma replace_link_ok reference_links m :
  replace_link reference_links m = Ok (resolve reference_links m).
Proof.
  unfold replace_link, resolve, contains_key, getitem.
  destruct (reference_links !! group2 m) as [url|] eqn:H.
  - rewrite bool_decide_eq_true_2 by eauto. reflexivity.
  - rewrite bool_decide_eq_false_2; [reflexivity|].
    intros [x Hx]. discriminate.
Qed.

Lemma subst_fn_ok f g ps :
  (forall m, f m = Ok (g m)) ->
  subst_fn f ps = Ok (concat (map (piece_text g) ps)).
Proof.
  intros Hf. induction ps as [|[c|m] ps IH]; simpl.
  - reflexivity.
  - rewrite IH. reflexivity.
  - rewrite Hf, IH. reflexivity.
Qed.

Lemma sub_links_ok reference_links content :
  sub_links reference_links content
  = Ok (rewrite_links reference_links content).
Proof. apply subst_fn_ok. apply replace_link_ok. Qed.

Lemma process_file_eq content :
  process_file content =
  Ok (match findall_defs content with
      | [] => NoReferenceLinks
      | _ :: _ =>
          Written (strip (sub_defs
            (rewrite_links (dict (findall_defs content)) content)))
      end).
Proof.
  unfold process_file. rewrite sub_links_ok. simpl.
  destruct (findall_defs content) as [|p ps] eqn:Hf.
  - reflexivity.
  - rewrite bool_decide_eq_false_2; [reflexivity|].
    intros H. apply dict_empty_iff in H. discriminate.
Qed.

Lemma process_file_written content u :
  process_file content = Ok (Written u) ->
  findall_defs content ≠ [] /\
  u = strip (sub_defs (rewrite_links (dict (findall_defs content)) content)).
Proof.
  rewrite process_file_eq. destruct (findall_defs content); intros [= <-].
  split; [discriminate|reflexivity].
Qed.

Lemma process_file_none content :
  findall_defs content = [] -> process_file content = Ok NoReferenceLinks.
Proof. intros H. rewrite process_file_eq, H. reflexivity. Qed.

Lemma converted_file_eq content :
  converted_file content =
  Ok (match findall_defs content with
      | [] => content
      | _ :: _ =>
          strip (sub_defs (rewrite_links (dict (findall_defs content)) content))
      end).
Proof.
  unfold converted_file. rewrite process_file_eq. simpl.
  destruct (findall_defs content); reflexivity.
Qed.

(** ** No definition, no conversion *)

(** C2, as the code has it: when the text has no match of the definition
    pattern, [process_file] reports that there is no reference link and
    returns before it writes, so the output file is the unchanged copy of
    the input; nothing is trimmed. *)
Theorem no_definitions_no_change (content : str) :
  findall_defs content = [] ->
  process_file content = Ok NoReferenceLinks
  /\ converted_file content = Ok content.
Proof.
  intros H. split; [apply process_file_none; exact H|].
  rewrite converted_file_eq, H. reflexivity.
Qed.

Lemma no_definitions_no_change_witness :
  let content := py "hello
" in
  findall_defs content = []
  /\ process_file content = Ok NoReferenceLinks
  /\ converted_file content = Ok content.
Proof.
  split; [vm_compute; reflexivity|].
  apply no_definitions_no_change. vm_compute. reflexivity.
Defined.

(** C2 as stated fails: a text without definitions that ends with a newline
    reaches the output file untrimmed. *)
Lemma no_definitions_not_trimmed :
  let content := py "hello
" in
  findall_defs content = []
  /\ converted_file content = Ok content
  /\ content <> strip content.
Proof. vm_compute. split_and!; [reflexivity|reflexivity|discriminate]. Qed.

(** ** Definitions are stripped *)

Lemma findall_true_false s :
  match_def s = None -> findall_from true s = findall_from false s.
Proof.
  intros H. destruct s as [|c s]; [rewrite !findall_from_nil; reflexivity|].
  rewrite !findall_from_miss by (simpl; assumption). reflexivity.
Qed.

(** C3, as the code has it: the text that [re.sub] leaves has no match of
    the definition pattern, whether the key was used or not, and after the
    final [strip] no match starts anywhere past the first character of the
    output; so the output has no definition at all unless it begins with
    one. *)
Theorem definitions_stripped (content u : str) :
  process_file content = Ok (Written u) ->
  exists rewritten,
    sub_links (dict (findall_defs content)) content = Ok rewritten
    /\ u = strip (sub_defs rewritten)
    /\ findall_defs (sub_defs rewritten) = []
    /\ findall_from false u = []
    /\ (match_def u = None -> findall_defs u = []).
Proof.
  intros H. apply process_file_written in H as [_ ->].
  eexists. split; [apply sub_links_ok|]. split; [reflexivity|].
  assert (Hnone : forall t, findall_from false (strip (sub_defs t)) = []).
  { intros t. apply (findall_nil_strip true). apply findall_stripped. }
  split; [apply findall_stripped|]. split; [apply Hnone|].
  intros Hm. rewrite findall_defs_from, findall_true_false by exact Hm.
  apply Hnone.
Qed.

Lemma definitions_stripped_witness :
  let content := py "See [OpenAI][openai-ref] for details.

[unused]: https://example.com
[openai-ref]: https://openai.com" in
  let u := py "See [OpenAI](https://openai.com) for details." in
  process_file content = Ok (Written u)
  /\ exists rewritten,
    sub_links (dict (findall_defs content)) content = Ok rewritten
    /\ u = strip (sub_defs rewritten)
    /\ findall_defs (sub_defs rewritten) = []
    /\ findall_from false u = []
    /\ (match_def u = None -> findall_defs u = []).
Proof.
  split; [vm_compute; reflexivity|].
  apply definitions_stripped. vm_compute. reflexivity.
Defined.

(** C3 as stated fails: the final [strip] can bring an indented definition
    to the beginning of a line. *)
Lemma definition_left_in_output :
  let content := py "[b]: y
 [a]: x" in
  process_file content = Ok (Written (py "[a]: x"))
  /\ findall_defs (py "[a]: x") = [(py "a", py "x")].
Proof. vm_compute. split; reflexivity. Qed.

(** ** Running the conversion again *)

(** C5, as the code has it: converting the output again changes nothing,
    provided the output does not itself begin with a definition. *)
Theorem second_run_unchanged (content u : str) :
  converted_file content = Ok u ->
  match_def u = None ->
  converted_file u = Ok u.
Proof.
  rewrite converted_file_eq. intros [= Hu] Hm.
  assert (Hnone : findall_defs u = []).
  { destruct (findall_defs content) as [|p ps] eqn:Hf.
    - subst u. exact Hf.
    - rewrite findall_defs_from, findall_true_false by exact Hm.
      subst u. apply (findall_nil_strip true). apply findall_stripped. }
  rewrite converted_file_eq, Hnone. reflexivity.
Qed.

Lemma second_run_unchanged_witness :
  let content := py "See [OpenAI][openai-ref] for details.

[openai-ref]: https://openai.com" in
  let u := py "See [OpenAI](https://openai.com) for details." in
  converted_file content = Ok u /\ match_def u = None
  /\ converted_file u = Ok u.
Proof.
  split; [vm_compute; reflexivity|]. split; [vm_compute; reflexivity|].
  apply (second_run_unchanged
           (py "See [OpenAI][openai-ref] for details.

[openai-ref]: https://openai.com")); vm_compute; reflexivity.
Defined.

(** C5 as stated fails: the output of the first run can begin with a
    definition, which the second run removes. *)
Lemma second_run_changes :
  let content := py "[b]: y
 [a]: x" in
  converted_file content = Ok (py "[a]: x")
  /\ converted_file (py "[a]: x") = Ok [].
Proof. vm_compute. split; reflexivity. Qed.

(** ** What the dictionary stores *)







(** ** Duplicate keys *)



(** ** Only matches are changed *)

Lemma links_rewritten_keep d p s s' :
  links_rewritten d s s' -> links_rewritten d (p ++ s) (p ++ s').
Proof.
  intros H. induction p as [|c p IH]; [exact H|].
  simpl. apply lr_keep. exact IH.
Qed.

Lemma rewrite_links_unfold d s :
  rewrite_links d s =
  match match_link s with
  | Some ((t, k), rest) =>
      resolve d (MatchObj (ref_link t k) t k) ++ rewrite_links d rest
  | None =>
      match s with
      | c :: s' => c :: rewrite_links d s'
      | [] => []
      end
  end.
Proof.
  unfold rewrite_links. rewrite (links_unfold s).
  destruct (match_link s) as [[[t k] rest]|]; [reflexivity|].
  destruct s; reflexivity.
Qed.

Lemma rewrite_links_sound_upto d n :
  forall s, (length s <= n)%nat -> links_rewritten d s (rewrite_links d s).
Proof.
  induction n as [|n IH]; intros s Hlen.
  - destruct s; [constructor|simpl in Hlen; lia].
  - rewrite rewrite_links_unfold.
    destruct (match_link s) as [[[t k] rest]|] eqn:Hm.
    + pose proof (pat_link_shrinks true _ _ _ Hm) as Hshort.
      apply match_link_Some in Hm. destruct Hm as (-> & Ht & Htr & Hk & Hkr).
      assert (Hrest : links_rewritten d rest (rewrite_links d rest))
        by (apply IH; lia).
      unfold resolve. cbn [group0 group1 group2].
      destruct (d !! k) as [url|] eqn:Hd.
      * apply lr_inline; assumption.
      * apply links_rewritten_keep. exact Hrest.
    + destruct s as [|c s]; [constructor|].
      apply lr_keep. apply IH. simpl in Hlen. lia.
Qed.

Lemma rewrite_links_sound d s : links_rewritten d s (rewrite_links d s).
Proof. apply (rewrite_links_sound_upto d (length s)). reflexivity. Qed.

Lemma strip_defs_sound_upto n :
  forall s b, (length s <= n)%nat -> defs_removed s (strip_defs_from b s).
Proof.
  induction n as [|n IH]; intros s b Hlen.
  - destruct s; [|simpl in Hlen; lia].
    rewrite strip_defs_from_nil. constructor.
  - destruct (pat_def b s) as [[[k v] rest]|] eqn:Hp.
    + destruct b; [simpl in Hp|discriminate].
      rewrite (strip_defs_from_hit _ _ _ _ Hp).
      pose proof (pat_def_shrinks true _ _ _ Hp) as Hshort.
      apply match_def_Some in Hp.
      destruct Hp as (ws & -> & Hk & Hrb & Hws & Hv & Hnl & _).
      apply dr_drop; try assumption. apply IH. lia.
    + destruct s as [|c s]; [rewrite strip_defs_from_nil; constructor|].
      rewrite strip_defs_from_miss by exact Hp.
      apply dr_keep. apply IH. simpl in Hlen. lia.
Qed.

Lemma strip_defs_sound b s : defs_removed s (strip_defs_from b s).
Proof. apply (strip_defs_sound_upto (length s)). reflexivity. Qed.


(** ** Empty brackets *)

Lemma match_link_key t s3 :
  rbracket ∉ t ->
  match_link (lbracket :: t ++ rbracket :: s3) =
  match t with
  | [] => None
  | _ :: _ => '(k, rest) ← link_tail s3; Some ((t, k), rest)
  end.
Proof.
  intros Ht. unfold match_link, link_tail. rewrite expect_cons. simpl.
  rewrite (span_intro not_rbracket t (rbracket :: s3));
    [|apply no_rbracket_run; exact Ht|reflexivity].
  destruct t; [reflexivity|]. rewrite expect_cons. simpl.
  destruct (expect lbracket s3) as [s4|]; [simpl|reflexivity].
  destruct (span not_rbracket s4) as [k s5].
  destruct k; [reflexivity|]. destruct (expect rbracket s5); reflexivity.
Qed.

Lemma match_link_head c s : c ≠ lbracket -> match_link (c :: s) = None.
Proof.
  intros Hc. unfold match_link. simpl.
  destruct (N.eqb_spec c lbracket); [contradiction|reflexivity].
Qed.

Lemma match_link_no_tail t s3 :
  rbracket ∉ t -> link_tail s3 = None ->
  match_link (lbracket :: t ++ rbracket :: s3) = None.
Proof.
  intros Ht Hs3. rewrite match_link_key by exact Ht.
  destruct t; [reflexivity|]. rewrite Hs3. reflexivity.
Qed.

(** A bracket pair that is not followed by a second, non-empty one: the walk
    passes over it. *)
Lemma links_no_tail p s3 :
  rbracket ∉ p -> link_tail s3 = None ->
  links (p ++ rbracket :: s3) = map Lit (p ++ [rbracket]) ++ links s3.
Proof.
  intros Hp Hs3. induction p as [|c p IH].
  - simpl. apply links_miss. apply match_link_head. discriminate.
  - apply not_elem_of_cons in Hp as [Hc Hp]. norm_app.
    rewrite links_miss; [f_equal; apply IH; exact Hp|].
    destruct (N.eq_dec c lbracket) as [->|Hne].
    + apply match_link_no_tail; assumption.
    + apply match_link_head. exact Hne.
Qed.



(** Within a line, away from its beginning, the definition pattern is not
    tried. *)
Lemma defs_from_line line rest :
  nl ∉ line ->
  defs_from false (line ++ rest) = map Lit line ++ defs_from false rest.
Proof.
  intros Hline. induction line as [|c line IH]; [reflexivity|].
  apply not_elem_of_cons in Hline as [Hc Hline]. simpl.
  rewrite defs_from_false.
  assert ((c =? nl) = false) as -> by (apply N.eqb_neq; congruence).
  f_equal. apply IH. exact Hline.
Qed.






Lemma piece_text_lits f (p : str) : concat (map (piece_text f) (map Lit p)) = p.
Proof. induction p as [|c p IH]; [reflexivity|]. simpl. f_equal. exact IH. Qed.

Ltac not_in_literal :=
  vm_compute; let H := fresh in
  intros H; repeat (apply elem_of_cons in H as [H|H]; [discriminate|]);
  inversion H.



(** ** Well-formed documents

    On such documents the regular expressions find exactly the definitions
    and the usages. *)

Lemma lacks_spec c s : lacks c s = true <-> c ∉ s.
Proof.
  unfold lacks. induction s as [|x s IH]; simpl.
  - split; [intros _; apply not_elem_of_nil|reflexivity].
  - rewrite andb_true_iff, IH, negb_true_iff, N.eqb_neq, not_elem_of_cons.
    split; intros [H1 H2];
      (split; [intros E; apply H1; symmetry; exact E|exact H2]).
Qed.

Lemma nonempty_spec s : nonempty s = true <-> s ≠ [].
Proof. destruct s; simpl; split; congruence. Qed.

Lemma unlines_cons l l' ls :
  unlines (l :: l' :: ls) = l ++ nl :: unlines (l' :: ls).
Proof. reflexivity. Qed.

Lemma render_cons l l' doc :
  render (l :: l' :: doc) = render_line l ++ nl :: render (l' :: doc).
Proof. reflexivity. Qed.

Lemma render_single l : render [l] = render_line l.
Proof. reflexivity. Qed.

(** *** The substitution of usages on a well-formed document *)

Lemma links_plain t rest :
  lbracket ∉ t -> links (t ++ rest) = map Lit t ++ links rest.
Proof.
  intros Ht. induction t as [|c t IH]; [reflexivity|].
  apply not_elem_of_cons in Ht as [Hc Ht]. simpl.
  rewrite links_miss by (apply match_link_head; congruence).
  f_equal. apply IH. exact Ht.
Qed.

Lemma rewrite_links_plain d t rest :
  lbracket ∉ t -> rewrite_links d (t ++ rest) = t ++ rewrite_links d rest.
Proof.
  intros Ht. unfold rewrite_links. rewrite links_plain by exact Ht.
  rewrite map_app, concat_app, piece_text_lits. reflexivity.
Qed.

Lemma rewrite_links_ref d (t k rest : str) :
  t ≠ [] -> rbracket ∉ t -> k ≠ [] -> rbracket ∉ k ->
  rewrite_links d (ref_link t k ++ rest)
  = render_seg (resolve_seg d (Ref t k)) ++ rewrite_links d rest.
Proof.
  intros Ht Htr Hk Hkr. unfold rewrite_links.
  rewrite links_hit by assumption. simpl. unfold resolve. simpl.
  destruct (d !! k); reflexivity.
Qed.

Lemma link_tail_head c s : c ≠ lbracket -> link_tail (c :: s) = None.
Proof.
  intros Hc. unfold link_tail. simpl.
  destruct (N.eqb_spec c lbracket); [contradiction|reflexivity].
Qed.

Lemma rewrite_links_bracket d p c s3 :
  rbracket ∉ p -> c ≠ lbracket ->
  rewrite_links d (lbracket :: p ++ rbracket :: c :: s3)
  = lbracket :: p ++ rbracket :: rewrite_links d (c :: s3).
Proof.
  intros Hp Hc. unfold rewrite_links.
  pose proof (links_no_tail (lbracket :: p) (c :: s3)) as Hl.
  simpl in Hl. rewrite Hl.
  - simpl. f_equal. rewrite map_app, concat_app, piece_text_lits.
    norm_app. reflexivity.
  - intros H. apply elem_of_cons in H as [H|H]; [discriminate|exact (Hp H)].
  - apply link_tail_head. exact Hc.
Qed.

Lemma all_space_lacks c ws : is_space c = false -> all_space ws -> c ∉ ws.
Proof.
  intros Hc Hws Hin. unfold all_space in Hws. rewrite Forall_forall in Hws.
  apply Hws in Hin. congruence.
Qed.

Lemma all_space_spec ws : forallb is_space ws = true <-> all_space ws.
Proof.
  unfold all_space. rewrite forallb_forall, Forall_forall.
  split; intros H x Hx; apply H; apply list_elem_of_In; exact Hx.
Qed.

Lemma rewrite_links_seg d s rest :
  wf_seg s = true ->
  rewrite_links d (render_seg s ++ rest)
  = render_seg (resolve_seg d s) ++ rewrite_links d rest.
Proof.
  destruct s as [t|t k|t u]; simpl; intros H.
  - apply andb_true_iff in H as [H _]. apply lacks_spec in H.
    apply rewrite_links_plain. exact H.
  - repeat (apply andb_true_iff in H as [H ?]).
    apply (rewrite_links_ref d t k rest);
      first [apply nonempty_spec; assumption|apply lacks_spec; assumption].
  - repeat (apply andb_true_iff in H as [H ?]).
    unfold inline_link. norm_app.
    rewrite rewrite_links_bracket;
      [|apply lacks_spec; assumption|discriminate].
    f_equal. f_equal. f_equal.
    pose proof (rewrite_links_plain d (lparen :: u ++ [rparen]) rest) as Hp.
    norm_app. norm_app_in Hp. apply Hp. intros Hin. apply elem_of_cons in Hin as [Hin|Hin]; [discriminate|].
    apply elem_of_app in Hin as [Hin|Hin].
    + revert Hin. apply lacks_spec. assumption.
    + apply list_elem_of_singleton in Hin. discriminate.
Qed.

Lemma rewrite_links_segs d segs rest :
  forallb wf_seg segs = true ->
  rewrite_links d (concat (map render_seg segs) ++ rest)
  = concat (map render_seg (map (resolve_seg d) segs)) ++ rewrite_links d rest.
Proof.
  induction segs as [|s segs IH]; simpl; intros H; [reflexivity|].
  apply andb_true_iff in H as [Hs Hsegs].
  rewrite <- !app_assoc, rewrite_links_seg by exact Hs.
  rewrite IH by exact Hsegs. reflexivity.
Qed.

Lemma rewrite_links_line d l rest :
  wf_line l = true ->
  rewrite_links d (render_line l ++ rest)
  = render_line (rewrite_line d l) ++ rewrite_links d rest.
Proof.
  destruct l as [k ws v|segs]; simpl; intros H;
    [|apply rewrite_links_segs; exact H].
  repeat (apply andb_true_iff in H as [H ?]).
  unfold def_text. norm_app.
  rewrite rewrite_links_bracket; [|apply lacks_spec; assumption|discriminate].
  f_equal. f_equal. f_equal.
  pose proof (rewrite_links_plain d (colon :: ws ++ v) rest) as Hp.
  norm_app_in Hp. apply Hp.
  intros Hin. apply elem_of_cons in Hin as [Hin|Hin]; [discriminate|].
  apply elem_of_app in Hin as [Hin|Hin].
  - revert Hin. apply all_space_lacks; [reflexivity|].
    apply all_space_spec. assumption.
  - revert Hin. apply lacks_spec. assumption.
Qed.

Lemma rewrite_links_newline d s :
  rewrite_links d (nl :: s) = nl :: rewrite_links d s.
Proof.
  rewrite rewrite_links_unfold, match_link_head by discriminate. reflexivity.
Qed.

Lemma rewrite_links_doc d doc :
  wf_doc doc = true ->
  rewrite_links d (render doc) = render (map (rewrite_line d) doc).
Proof.
  induction doc as [|l doc IH]; [reflexivity|]. simpl. intros H.
  apply andb_true_iff in H as [Hl Hdoc]. destruct doc as [|l' doc].
  - rewrite !render_single.
    rewrite <- (app_nil_r (render_line l)), rewrite_links_line by exact Hl.
    apply app_nil_r.
  - specialize (IH Hdoc). cbn [map] in *.
    rewrite !render_cons, rewrite_links_line by exact Hl.
    rewrite rewrite_links_newline, IH. reflexivity.
Qed.

(** *** The definition pattern on a well-formed document *)

Lemma defs_from_eol rest :
  at_eol rest = true -> defs_from true rest = defs_from false rest.
Proof.
  destruct rest as [|c rest]; [reflexivity|]. simpl. intros Hc.
  rewrite !defs_from_miss; [reflexivity..|].
  apply N.eqb_eq in Hc. subst c. apply match_def_head. discriminate.
Qed.

Lemma defs_from_newline s : defs_from false (nl :: s) = Lit nl :: defs_from true s.
Proof. apply defs_from_false. Qed.

Lemma prose_not_def segs rest :
  forallb wf_seg segs = true -> at_eol rest = true ->
  match_def (concat (map render_seg segs) ++ rest) = None.
Proof.
  intros Hsegs Hrest. induction segs as [|s segs IH]; simpl.
  - destruct rest as [|c rest]; [reflexivity|]. simpl in Hrest.
    apply N.eqb_eq in Hrest. subst c. apply match_def_head. discriminate.
  - simpl in Hsegs. apply andb_true_iff in Hsegs as [Hs Hsegs].
    specialize (IH Hsegs). rewrite <- app_assoc.
    destruct s as [t|t k|t u]; simpl in *.
    + destruct t as [|c t]; [exact IH|].
      apply andb_true_iff in Hs as [Hs _]. apply lacks_spec in Hs.
      apply not_elem_of_cons in Hs as [Hc _].
      apply match_def_head. congruence.
    + repeat (apply andb_true_iff in Hs as [Hs ?]).
      unfold ref_link. norm_app. apply match_def_no_target.
      * apply lacks_spec. assumption.
      * intros s4 [=].
    + repeat (apply andb_true_iff in Hs as [Hs ?]).
      unfold inline_link. norm_app. apply match_def_no_target.
      * apply lacks_spec. assumption.
      * intros s4 [=].
Qed.

Lemma not_elem_of_concat_map {A} (c : char) (f : A -> str) (xs : list A) :
  (forall x, x ∈ xs -> c ∉ f x) -> c ∉ concat (map f xs).
Proof.
  induction xs as [|x xs IH]; intros H; simpl; [apply not_elem_of_nil|].
  apply not_elem_of_app. split.
  - apply H. apply elem_of_cons. left. reflexivity.
  - apply IH. intros y Hy. apply H. apply elem_of_cons. right. exact Hy.
Qed.

Lemma wf_seg_no_nl s : wf_seg s = true -> nl ∉ render_seg s.
Proof.
  destruct s as [t|t k|t u]; simpl; intros H;
    repeat (apply andb_true_iff in H as [H ?]).
  - apply lacks_spec. assumption.
  - unfold ref_link. intros Hin.
    apply elem_of_app in Hin as [Hin|Hin];
      [apply list_elem_of_singleton in Hin; discriminate|].
    apply elem_of_app in Hin as [Hin|Hin];
      [revert Hin; apply lacks_spec; assumption|].
    apply elem_of_app in Hin as [Hin|Hin].
    { repeat (apply elem_of_cons in Hin as [Hin|Hin]; [discriminate|]).
      inversion Hin. }
    apply elem_of_app in Hin as [Hin|Hin];
      [revert Hin; apply lacks_spec; assumption|].
    apply list_elem_of_singleton in Hin. discriminate.
  - unfold inline_link. intros Hin.
    apply elem_of_app in Hin as [Hin|Hin];
      [apply list_elem_of_singleton in Hin; discriminate|].
    apply elem_of_app in Hin as [Hin|Hin];
      [revert Hin; apply lacks_spec; assumption|].
    apply elem_of_app in Hin as [Hin|Hin].
    { repeat (apply elem_of_cons in Hin as [Hin|Hin]; [discriminate|]).
      inversion Hin. }
    apply elem_of_app in Hin as [Hin|Hin];
      [revert Hin; apply lacks_spec; assumption|].
    apply list_elem_of_singleton in Hin. discriminate.
Qed.

Lemma prose_no_nl segs :
  forallb wf_seg segs = true -> nl ∉ concat (map render_seg segs).
Proof.
  intros H. apply not_elem_of_concat_map. intros s Hs.
  apply wf_seg_no_nl. rewrite forallb_forall in H. apply H.
  apply list_elem_of_In. exact Hs.
Qed.

Lemma starts_visible_spec v :
  starts_visible v = true -> exists c v', v = c :: v' /\ is_space c = false.
Proof.
  destruct v as [|c v]; [discriminate|]. simpl. intros H.
  exists c, v. split; [reflexivity|]. apply negb_true_iff. exact H.
Qed.

Lemma defs_from_wf_line l rest :
  wf_line l = true -> at_eol rest = true ->
  defs_from true (render_line l ++ rest) = line_pieces l ++ defs_from false rest.
Proof.
  destruct l as [k ws v|segs]; cbn [render_line line_pieces wf_line];
    intros H Hrest.
  - repeat (apply andb_true_iff in H as [H ?]).
    destruct (starts_visible_spec v) as (c & v' & -> & Hc); [assumption|].
    assert (Hm : match_def (def_text k ws (c :: v') ++ rest)
                 = Some ((k, c :: v'), rest)).
    { apply match_def_intro; try assumption.
      - apply nonempty_spec. assumption.
      - apply lacks_spec. assumption.
      - apply all_space_spec. assumption.
      - apply lacks_spec. assumption. }
    destruct (defs_from_hit _ _ _ _ Hm) as (ws' & Heq & Hd).
    rewrite Hd. apply app_inv_tail in Heq. rewrite <- Heq. reflexivity.
  - pose proof (prose_not_def segs rest H Hrest) as Hm.
    pose proof (prose_no_nl segs H) as Hnl.
    destruct (concat (map render_seg segs)) as [|c L] eqn:HL.
    + simpl. apply defs_from_eol. exact Hrest.
    + simpl in *. rewrite defs_from_miss by exact Hm.
      apply not_elem_of_cons in Hnl as [Hc Hnl].
      assert ((c =? nl) = false) as -> by (apply N.eqb_neq; congruence).
      rewrite defs_from_line by exact Hnl. reflexivity.
Qed.

Lemma defs_from_wf_doc doc :
  wf_doc doc = true -> defs_from true (render doc) = doc_pieces doc.
Proof.
  induction doc as [|l doc IH]; [reflexivity|]. simpl. intros H.
  apply andb_true_iff in H as [Hl Hdoc]. destruct doc as [|l' doc].
  - rewrite render_single, <- (app_nil_r (render_line l)).
    rewrite defs_from_wf_line by (exact Hl || reflexivity).
    rewrite defs_from_nil. apply app_nil_r.
  - rewrite render_cons, defs_from_wf_line by (exact Hl || reflexivity).
    rewrite defs_from_newline, (IH Hdoc). reflexivity.
Qed.

Lemma groups_of_doc_pieces doc : groups_of (doc_pieces doc) = defs_of doc.
Proof.
  induction doc as [|l doc IH]; [reflexivity|].
  assert (Hl : groups_of (line_pieces l) = defs_of [l]).
  { destruct l as [k ws v|segs]; [reflexivity|]. apply groups_of_lits. }
  destruct doc as [|l' doc].
  - exact Hl.
  - change (doc_pieces (l :: l' :: doc))
      with (line_pieces l ++ Lit nl :: doc_pieces (l' :: doc)).
    rewrite groups_of_app, Hl.
    change (groups_of (Lit nl :: doc_pieces (l' :: doc)))
      with (groups_of (doc_pieces (l' :: doc))).
    rewrite IH. destruct l; reflexivity.
Qed.

Lemma subst_str_doc_pieces doc :
  subst_str [] (doc_pieces doc) = render (map blank_def doc).
Proof.
  induction doc as [|l doc IH]; [reflexivity|].
  assert (Hl : subst_str [] (line_pieces l) = render_line (blank_def l)).
  { destruct l as [k ws v|segs]; [reflexivity|]. apply subst_str_lits. }
  destruct doc as [|l' doc].
  - exact Hl.
  - change (doc_pieces (l :: l' :: doc))
      with (line_pieces l ++ Lit nl :: doc_pieces (l' :: doc)).
    rewrite subst_str_app, Hl. cbn [map] in *. rewrite render_cons.
    f_equal. change (subst_str [] (Lit nl :: doc_pieces (l' :: doc)))
      with (nl :: subst_str [] (doc_pieces (l' :: doc))).
    rewrite IH. reflexivity.
Qed.

Lemma findall_wf_doc doc :
  wf_doc doc = true -> findall_defs (render doc) = defs_of doc.
Proof.
  intros H. rewrite findall_defs_from. unfold findall_from.
  rewrite defs_from_wf_doc by exact H. apply groups_of_doc_pieces.
Qed.

Lemma sub_defs_wf_doc doc :
  wf_doc doc = true -> sub_defs (render doc) = render (map blank_def doc).
Proof.
  intros H. rewrite sub_defs_from. unfold strip_defs_from.
  rewrite defs_from_wf_doc by exact H. apply subst_str_doc_pieces.
Qed.

(** *** The conversion of a well-formed document *)

Lemma defs_of_wf doc k u :
  wf_doc doc = true -> (k, u) ∈ defs_of doc -> (lbracket ∉ u) /\ (nl ∉ u).
Proof.
  intros Hwf Hin. unfold defs_of in Hin.
  apply list_elem_of_omap in Hin. destruct Hin as (l & Hl & Hkv).
  unfold wf_doc in Hwf. rewrite forallb_forall in Hwf.
  apply list_elem_of_In, Hwf in Hl.
  destruct l as [k' ws v|segs]; [|discriminate]. injection Hkv as -> ->.
  simpl in Hl. repeat (apply andb_true_iff in Hl as [Hl ?]).
  split; apply lacks_spec; assumption.
Qed.

Lemma good_urls_dict doc : wf_doc doc = true -> good_urls (dict (defs_of doc)).
Proof.
  intros Hwf k u Hd. apply dict_lookup_Some in Hd.
  exact (defs_of_wf doc k u Hwf Hd).
Qed.

Lemma wf_resolve_seg d s :
  good_urls d -> wf_seg s = true -> wf_seg (resolve_seg d s) = true.
Proof.
  intros Hd. destruct s as [t|t k|t u]; simpl; intros H; try exact H.
  destruct (d !! k) as [u|] eqn:Hk; [|exact H]. simpl.
  destruct (Hd k u Hk) as [Hu1 Hu2]. apply lacks_spec in Hu1, Hu2.
  repeat (apply andb_true_iff in H as [H ?]).
  repeat (apply andb_true_iff; split); assumption.
Qed.

Lemma wf_rewrite_line d l :
  good_urls d -> wf_line l = true -> wf_line (rewrite_line d l) = true.
Proof.
  intros Hd. destruct l as [k ws v|segs]; simpl; intros H; [exact H|].
  induction segs as [|s segs IH]; [reflexivity|]. simpl in *.
  apply andb_true_iff in H as [Hs Hsegs]. apply andb_true_iff. split.
  - apply wf_resolve_seg; assumption.
  - apply IH. exact Hsegs.
Qed.

Lemma wf_rewrite_doc d doc :
  good_urls d -> wf_doc doc = true -> wf_doc (map (rewrite_line d) doc) = true.
Proof.
  intros Hd. induction doc as [|l doc IH]; [reflexivity|]. simpl. intros H.
  apply andb_true_iff in H as [Hl Hdoc]. apply andb_true_iff. split.
  - apply wf_rewrite_line; assumption.
  - apply IH. exact Hdoc.
Qed.

(** On a well-formed document with a definition, [process_file] writes the
    document where each usage with a known key has become an inline link and
    each definition line an empty line, stripped. *)
Lemma wf_conversion doc :
  wf_doc doc = true -> defs_of doc ≠ [] ->
  findall_defs (render doc) = defs_of doc
  /\ process_file (render doc) = Ok (Written (strip (render (convert doc))))
  /\ converted_file (render doc) = Ok (strip (render (convert doc))).
Proof.
  intros Hwf Hdefs.
  pose proof (findall_wf_doc doc Hwf) as Hfind.
  assert (Hout : sub_defs (rewrite_links (dict (defs_of doc)) (render doc))
                 = render (convert doc)).
  { rewrite rewrite_links_doc by exact Hwf.
    rewrite sub_defs_wf_doc
      by (apply wf_rewrite_doc; [apply good_urls_dict|]; exact Hwf).
    unfold convert. rewrite map_map. reflexivity. }
  split; [exact Hfind|].
  rewrite process_file_eq, converted_file_eq, Hfind, Hout.
  destruct (defs_of doc); [congruence|]. split; reflexivity.
Qed.

(** *** What [strip] keeps *)

Lemma lstrip_keeps m a b :
  starts_visible m = true ->
  exists a', lstrip (a ++ m ++ b) = a' ++ m ++ b.
Proof.
  intros Hm. induction a as [|x a IH].
  - exists []. destruct (starts_visible_spec m Hm) as (c & m' & -> & Hc).
    simpl. rewrite Hc. reflexivity.
  - simpl. destruct (is_space x).
    + exact IH.
    + exists (x :: a). reflexivity.
Qed.

Lemma strip_keeps_infix m s :
  starts_visible m = true -> starts_visible (rev m) = true ->
  infix m s -> infix m (strip s).
Proof.
  intros Hhead Hlast (a & b & ->). unfold strip, rstrip.
  destruct (lstrip_keeps m a b Hhead) as [a' ->].
  rewrite !rev_app_distr, <- app_assoc.
  destruct (lstrip_keeps (rev m) (rev b) (rev a') Hlast) as [b' ->].
  exists a', (rev b').
  rewrite !rev_app_distr, !rev_involutive, <- app_assoc. reflexivity.
Qed.

Lemma infix_app_l m s a : infix m s -> infix m (a ++ s).
Proof.
  intros (x & y & ->). exists (a ++ x), y. rewrite <- app_assoc. reflexivity.
Qed.

Lemma infix_app_r m s b : infix m s -> infix m (s ++ b).
Proof.
  intros (x & y & ->). exists x, (y ++ b). rewrite <- !app_assoc. reflexivity.
Qed.

Lemma infix_refl m : infix m m.
Proof. exists [], []. rewrite app_nil_r. reflexivity. Qed.

Lemma infix_unlines m ls1 l ls2 :
  infix m l -> infix m (unlines (ls1 ++ l :: ls2)).
Proof.
  intros H. induction ls1 as [|l1 ls1 IH].
  - simpl. destruct ls2; [exact H|]. apply infix_app_r. exact H.
  - destruct (ls1 ++ l :: ls2) as [|x xs] eqn:Heq.
    { destruct ls1; discriminate. }
    simpl. rewrite Heq.
    apply infix_app_l. apply (infix_app_l m _ [nl]). exact IH.
Qed.

Lemma infix_concat m (xs1 : list str) x xs2 :
  infix m x -> infix m (concat (xs1 ++ x :: xs2)).
Proof.
  intros H. rewrite concat_app. apply infix_app_l. simpl.
  apply infix_app_r. exact H.
Qed.

Lemma visible_rev s : visible (rev s) = visible s.
Proof.
  unfold visible. apply eq_true_iff_eq. rewrite !existsb_exists.
  split; intros (c & Hin & Hc); exists c; (split; [|exact Hc]).
  - apply in_rev. exact Hin.
  - apply in_rev in Hin. exact Hin.
Qed.

Lemma lstrip_app_visible a s :
  visible a = true -> lstrip (a ++ s) = lstrip a ++ s.
Proof.
  induction a as [|x a IH]; simpl; [discriminate|].
  destruct (is_space x); simpl; [exact IH|reflexivity].
Qed.

Lemma rstrip_app_visible s b :
  visible b = true -> rstrip (s ++ b) = s ++ rstrip b.
Proof.
  intros Hb. unfold rstrip. rewrite rev_app_distr.
  rewrite lstrip_app_visible by (rewrite visible_rev; exact Hb).
  rewrite rev_app_distr, rev_involutive. reflexivity.
Qed.

Lemma strip_middle a m b :
  visible a = true -> visible b = true ->
  strip (a ++ m ++ b) = lstrip a ++ m ++ rstrip b.
Proof.
  intros Ha Hb. unfold strip. rewrite lstrip_app_visible by exact Ha.
  rewrite !app_assoc, rstrip_app_visible by exact Hb. reflexivity.
Qed.

Lemma unlines_app ls1 ls2 :
  ls1 ≠ [] -> ls2 ≠ [] ->
  unlines (ls1 ++ ls2) = unlines ls1 ++ nl :: unlines ls2.
Proof.
  intros H1 H2. induction ls1 as [|l ls1 IH]; [congruence|].
  destruct ls1 as [|l' ls1].
  - simpl. destruct ls2; [congruence|reflexivity].
  - change ((l :: l' :: ls1) ++ ls2) with (l :: l' :: (ls1 ++ ls2)).
    rewrite !unlines_cons. change (l' :: ls1 ++ ls2) with ((l' :: ls1) ++ ls2).
    rewrite IH by discriminate. rewrite <- app_assoc. reflexivity.
Qed.

Lemma dict_nil_lookup (k : str) : dict [] !! k = None.
Proof. apply lookup_empty. Qed.

Lemma convert_line_usage d (s1 s2 : list seg) (t k : str) :
  convert_line d (Prose (s1 ++ Ref t k :: s2))
  = Prose (map (resolve_seg d) s1 ++ resolve_seg d (Ref t k)
             :: map (resolve_seg d) s2).
Proof. unfold convert_line. simpl. rewrite map_app. reflexivity. Qed.

Lemma infix_render_usage d (before after : list line) (s1 s2 : list seg) t k :
  infix (render_seg (resolve_seg d (Ref t k)))
    (render (map (convert_line d)
               (before ++ Prose (s1 ++ Ref t k :: s2) :: after))).
Proof.
  unfold render. rewrite map_app, map_app. cbn [map].
  apply infix_unlines. rewrite convert_line_usage. cbn [render_line].
  rewrite map_app. cbn [map]. apply infix_concat. apply infix_refl.
Qed.

Lemma rev_inline_link t u :
  rev (inline_link t u) = rparen :: rev u ++ [lparen; rbracket] ++ rev t ++ [lbracket].
Proof.
  unfold inline_link. rewrite !rev_app_distr. simpl.
  rewrite <- !app_assoc. reflexivity.
Qed.

Lemma rev_ref_link t k :
  rev (ref_link t k) = rbracket :: rev k ++ [lbracket; rbracket] ++ rev t ++ [lbracket].
Proof.
  unfold ref_link. rewrite !rev_app_distr. simpl.
  rewrite <- !app_assoc. reflexivity.
Qed.

(** *** No usage left *)

Lemma links_inline t u rest :
  rbracket ∉ t -> lbracket ∉ u ->
  links (inline_link t u ++ rest) = map Lit (inline_link t u) ++ links rest.
Proof.
  intros Ht Hu. unfold inline_link. norm_app.
  pose proof (links_no_tail (lbracket :: t) (lparen :: u ++ rparen :: rest))
    as Hl.
  simpl in Hl. rewrite Hl.
  - pose proof (links_plain (lparen :: u ++ [rparen]) rest) as Hp.
    norm_app_in Hp. rewrite Hp.
    + repeat (rewrite !map_app; norm_app). reflexivity.
    + intros Hin. apply elem_of_cons in Hin as [Hin|Hin]; [discriminate|].
      apply elem_of_app in Hin as [Hin|Hin]; [exact (Hu Hin)|].
      apply list_elem_of_singleton in Hin. discriminate.
  - intros H. apply elem_of_cons in H as [H|H]; [discriminate|exact (Ht H)].
  - apply link_tail_head. discriminate.
Qed.

Lemma links_no_ref_segs segs rest :
  forallb wf_seg segs = true -> forallb no_ref_seg segs = true ->
  links (concat (map render_seg segs) ++ rest)
  = map Lit (concat (map render_seg segs)) ++ links rest.
Proof.
  induction segs as [|s segs IH]; simpl; intros Hwf Hno; [reflexivity|].
  apply andb_true_iff in Hwf as [Hs Hwf].
  apply andb_true_iff in Hno as [Hn Hno].
  rewrite <- app_assoc, map_app, <- app_assoc. rewrite <- (IH Hwf Hno).
  destruct s as [t|t k|t u]; simpl in *; [|discriminate|].
  - apply andb_true_iff in Hs as [Hs _]. apply links_plain.
    apply lacks_spec. exact Hs.
  - repeat (apply andb_true_iff in Hs as [Hs ?]).
    apply links_inline; apply lacks_spec; assumption.
Qed.

Lemma links_no_ref_doc doc :
  wf_doc doc = true -> forallb no_ref_line doc = true ->
  links (render doc) = map Lit (render doc).
Proof.
  induction doc as [|l doc IH]; [reflexivity|]. simpl. intros Hwf Hno.
  apply andb_true_iff in Hwf as [Hl Hwf].
  apply andb_true_iff in Hno as [Hn Hno].
  destruct l as [k ws v|segs]; [discriminate|]. simpl in Hl, Hn.
  destruct doc as [|l' doc].
  - rewrite render_single. cbn [render_line].
    rewrite <- (app_nil_r (concat (map render_seg segs))) at 1.
    rewrite links_no_ref_segs by assumption. apply app_nil_r.
  - rewrite render_cons. cbn [render_line].
    rewrite links_no_ref_segs by assumption.
    rewrite links_miss by (apply match_link_head; discriminate).
    rewrite (IH Hwf Hno), map_app. reflexivity.
Qed.

Lemma no_hit_no_match (a s : str) :
  links (a ++ s) = map Lit (a ++ s) -> match_link s = None.
Proof.
  induction a as [|c a IH]; simpl; intros H.
  - destruct (match_link s) as [[[t k] rest]|] eqn:Hm; [|reflexivity].
    rewrite links_unfold, Hm in H. destruct s; discriminate.
  - destruct (match_link (c :: a ++ s)) as [[[t k] rest]|] eqn:Hm.
    + rewrite links_unfold, Hm in H. discriminate.
    + rewrite links_miss in H by exact Hm. injection H as H. exact (IH H).
Qed.

Lemma no_hit_no_usage (o t k : str) :
  links o = map Lit o ->
  t ≠ [] -> rbracket ∉ t -> k ≠ [] -> rbracket ∉ k ->
  ~ infix (ref_link t k) o.
Proof.
  intros Ho Ht Htr Hk Hkr (a & b & ->).
  apply no_hit_no_match in Ho. rewrite match_link_intro in Ho by assumption.
  discriminate.
Qed.

Lemma strip_infix s : infix (strip s) s.
Proof.
  destruct (lstrip_suffix s) as (ws & Hs & _).
  destruct (rstrip_prefix (lstrip s)) as (ws' & Hs' & _).
  exists ws, ws'. rewrite Hs at 1. rewrite Hs' at 1. reflexivity.
Qed.

Lemma infix_trans m s s' : infix m s -> infix s s' -> infix m s'.
Proof.
  intros (a & b & ->) (a' & b' & ->). exists (a' ++ a), (b ++ b').
  rewrite <- !app_assoc. reflexivity.
Qed.

Lemma resolved_no_ref d s :
  resolved_seg d s = true -> no_ref_seg (resolve_seg d s) = true.
Proof.
  destruct s as [t|t k|t u]; simpl; intros H; try reflexivity.
  unfold contains_key in H. apply bool_decide_eq_true in H as [u Hu].
  rewrite Hu. reflexivity.
Qed.

Lemma all_resolved_no_ref d doc :
  all_resolved d doc = true ->
  forallb no_ref_line (map (convert_line d) doc) = true.
Proof.
  induction doc as [|l doc IH]; [reflexivity|]. simpl. intros H.
  apply andb_true_iff in H as [Hl H]. apply andb_true_iff.
  split; [|exact (IH H)].
  destruct l as [k ws v|segs]; [reflexivity|]. simpl.
  induction segs as [|s segs IHs]; [reflexivity|]. simpl in *.
  apply andb_true_iff in Hl as [Hs Hl]. apply andb_true_iff.
  split; [apply resolved_no_ref; exact Hs|exact (IHs Hl)].
Qed.

Lemma wf_blank_def l : wf_line l = true -> wf_line (blank_def l) = true.
Proof. destruct l; [reflexivity|]. intros H. exact H. Qed.

Lemma wf_convert doc : wf_doc doc = true -> wf_doc (convert doc) = true.
Proof.
  intros Hwf. unfold convert.
  pose proof (good_urls_dict doc Hwf) as Hd. revert Hd.
  generalize (dict (defs_of doc)). intros d Hd.
  induction doc as [|l doc IH]; [reflexivity|]. simpl in *.
  apply andb_true_iff in Hwf as [Hl Hwf]. apply andb_true_iff. split.
  - apply wf_blank_def, wf_rewrite_line; assumption.
  - apply IH. exact Hwf.
Qed.

(** When every usage of a well-formed document has a definition, no text of
    the form [[t][k]] is left in the output. *)
Lemma no_usage_left doc (t k : str) :
  wf_doc doc = true -> all_resolved (dict (defs_of doc)) doc = true ->
  t ≠ [] -> rbracket ∉ t -> k ≠ [] -> rbracket ∉ k ->
  ~ infix (ref_link t k) (strip (render (convert doc))).
Proof.
  intros Hwf Hres Ht Htr Hk Hkr Hin.
  apply (no_hit_no_usage (render (convert doc)) t k); try assumption.
  - apply links_no_ref_doc; [apply wf_convert; exact Hwf|].
    apply all_resolved_no_ref. exact Hres.
  - exact (infix_trans _ _ _ Hin (strip_infix _)).
Qed.

(** ** Usages with a definition *)

(** C1, as the code has it: in a well-formed document, a usage [[t][k]]
    whose key the dictionary maps to [u] is replaced in its place by
    [[t](u)], and the output contains that inline link.  When moreover every
    usage of the document has its key in the dictionary, the output contains
    no text of the form of a usage. *)
Theorem usage_resolved (before after : list line) (s1 s2 : list seg)
    (t k u : str) :
  let doc := before ++ Prose (s1 ++ Ref t k :: s2) :: after in
  let d := dict (findall_defs (render doc)) in
  wf_doc doc = true ->
  d !! k = Some u ->
  converted_file (render doc) = Ok (strip (render (convert doc)))
  /\ convert doc
     = map (convert_line d) before
       ++ Prose (map (resolve_seg d) s1 ++ Inline t u :: map (resolve_seg d) s2)
       :: map (convert_line d) after
  /\ infix (inline_link t u) (strip (render (convert doc)))
  /\ (all_resolved d doc = true ->
      forall t' k' : str,
        t' ≠ [] -> rbracket ∉ t' -> k' ≠ [] -> rbracket ∉ k' ->
        ~ infix (ref_link t' k') (strip (render (convert doc)))).
Proof.
  intros doc d Hwf Hk. subst d.
  pose proof (findall_wf_doc doc Hwf) as Hfind. rewrite Hfind in *.
  set (d := dict (defs_of doc)) in *.
  assert (Hdefs : defs_of doc ≠ []).
  { intros E. subst d. rewrite E, dict_nil_lookup in Hk. discriminate. }
  destruct (wf_conversion doc Hwf Hdefs) as (_ & _ & Hconv).
  split; [exact Hconv|].
  assert (Hseg : resolve_seg d (Ref t k) = Inline t u).
  { simpl. rewrite Hk. reflexivity. }
  split; [|split].
  - unfold convert. fold d. unfold doc. rewrite map_app. cbn [map].
    rewrite convert_line_usage, Hseg. reflexivity.
  - unfold convert. fold d. unfold doc.
    apply strip_keeps_infix; [reflexivity| |].
    + rewrite rev_inline_link. reflexivity.
    + pose proof (infix_render_usage d before after s1 s2 t k) as Hin.
      rewrite Hseg in Hin. exact Hin.
  - intros Hres t' k'. apply no_usage_left; assumption.
Qed.

Lemma usage_resolved_witness :
  let doc := [Prose [Text (py "See "); Ref (py "OpenAI") (py "openai-ref");
                     Text (py " for details.")];
              Prose [];
              DefLine (py "openai-ref") (py " ") (py "https://openai.com")] in
  render doc = py "See [OpenAI][openai-ref] for details.

[openai-ref]: https://openai.com"
  /\ converted_file (render doc)
     = Ok (py "See [OpenAI](https://openai.com) for details.")
  /\ infix (inline_link (py "OpenAI") (py "https://openai.com"))
       (strip (render (convert doc)))
  /\ ~ infix (ref_link (py "OpenAI") (py "openai-ref"))
        (strip (render (convert doc))).
Proof.
  intros doc. split; [vm_compute; reflexivity|].
  destruct (usage_resolved [] [Prose [];
              DefLine (py "openai-ref") (py " ") (py "https://openai.com")]
              [Text (py "See ")] [Text (py " for details.")]
              (py "OpenAI") (py "openai-ref") (py "https://openai.com"))
    as (H1 & _ & H3 & H4); [vm_compute; reflexivity..|].
  split; [vm_compute; reflexivity|]. split; [exact H3|].
  apply H4; [vm_compute; reflexivity|discriminate| |discriminate|];
    not_in_literal.
Defined.

(** C1 as stated fails: a usage that stands in the target of a definition is
    rewritten and then removed with the definition line, so the output has
    no [[T](U)]; and where the first bracket pair of a usage is taken as the
    key of a match that starts earlier, the text [[T][r]] stays. *)
Lemma usage_not_resolved :
  let content1 := py "[k]: see [T][r]
[r]: U" in
  let content2 := py "[x][T][r]
[r]: U" in
  infix (py "[T][r]") content1
  /\ dict (findall_defs content1) !! py "r" = Some (py "U")
  /\ converted_file content1 = Ok []
  /\ ~ infix (py "[T](U)") []
  /\ infix (py "[T][r]") content2
  /\ dict (findall_defs content2) !! py "r" = Some (py "U")
  /\ converted_file content2 = Ok (py "[x][T][r]")
  /\ infix (py "[T][r]") (py "[x][T][r]").
Proof.
  intros content1 content2.
  split; [exists (py "[k]: see "), (py "
[r]: U"); vm_compute; reflexivity|].
  split; [vm_compute; reflexivity|].
  split; [vm_compute; reflexivity|].
  split; [intros (a & b & H); destruct a; discriminate|].
  split; [exists (py "[x]"), (py "
[r]: U"); vm_compute; reflexivity|].
  split; [vm_compute; reflexivity|].
  split; [vm_compute; reflexivity|].
  exists (py "[x]"), []. vm_compute. reflexivity.
Qed.

(** ** Usages without a definition *)

(** C4, as the code has it: in a well-formed document with at least one
    definition, a usage [[t][k]] whose key is not in the dictionary stays in
    its place unchanged, and the output contains it. *)
Theorem usage_unresolved_kept (before after : list line) (s1 s2 : list seg)
    (t k : str) :
  let doc := before ++ Prose (s1 ++ Ref t k :: s2) :: after in
  let d := dict (findall_defs (render doc)) in
  wf_doc doc = true ->
  findall_defs (render doc) ≠ [] ->
  d !! k = None ->
  converted_file (render doc) = Ok (strip (render (convert doc)))
  /\ convert doc
     = map (convert_line d) before
       ++ Prose (map (resolve_seg d) s1 ++ Ref t k :: map (resolve_seg d) s2)
       :: map (convert_line d) after
  /\ infix (ref_link t k) (strip (render (convert doc))).
Proof.
  intros doc d Hwf Hdefs Hk. subst d.
  pose proof (findall_wf_doc doc Hwf) as Hfind. rewrite Hfind in *.
  set (d := dict (defs_of doc)) in *.
  destruct (wf_conversion doc Hwf Hdefs) as (_ & _ & Hconv).
  split; [exact Hconv|].
  assert (Hseg : resolve_seg d (Ref t k) = Ref t k).
  { simpl. rewrite Hk. reflexivity. }
  unfold convert. fold d. unfold doc. split.
  - rewrite map_app. cbn [map].
    rewrite convert_line_usage, Hseg. reflexivity.
  - apply strip_keeps_infix; [reflexivity| |].
    + rewrite rev_ref_link. reflexivity.
    + pose proof (infix_render_usage d before after s1 s2 t k) as Hin.
      rewrite Hseg in Hin. exact Hin.
Qed.

Lemma usage_unresolved_kept_witness :
  let doc := [Prose [Text (py "See "); Ref (py "Foo") (py "bar");
                     Text (py " and "); Ref (py "A") (py "a")];
              DefLine (py "a") (py " ") (py "https://a.example")] in
  render doc = py "See [Foo][bar] and [A][a]
[a]: https://a.example"
  /\ converted_file (render doc)
     = Ok (py "See [Foo][bar] and [A](https://a.example)")
  /\ infix (ref_link (py "Foo") (py "bar")) (strip (render (convert doc))).
Proof.
  intros doc. split; [vm_compute; reflexivity|].
  destruct (usage_unresolved_kept []
              [DefLine (py "a") (py " ") (py "https://a.example")]
              [Text (py "See ")] [Text (py " and "); Ref (py "A") (py "a")]
              (py "Foo") (py "bar"))
    as (H1 & _ & H3);
    [vm_compute; reflexivity|vm_compute; discriminate|vm_compute; reflexivity|].
  split; [|exact H3]. vm_compute. reflexivity.
Defined.

(** C4 as stated fails: a usage without definition that stands in the target
    of a definition line is removed with that line. *)
Lemma usage_unresolved_removed :
  let content := py "[k]: see [T][x]" in
  infix (py "[T][x]") content
  /\ match_link (py "[T][x]") = Some ((py "T", py "x"), [])
  /\ dict (findall_defs content) !! py "x" = None
  /\ converted_file content = Ok []
  /\ ~ infix (py "[T][x]") [].
Proof.
  intros content.
  split; [exists (py "[k]: see "), []; vm_compute; reflexivity|].
  split; [vm_compute; reflexivity|].
  split; [vm_compute; reflexivity|].
  split; [vm_compute; reflexivity|].
  intros (a & b & H). destruct a; discriminate.
Qed.

(** ** The line of a removed definition *)

(** C9, as the code has it: the substitution removes the text of the
    definition and not the newline after it, so the line stays as an empty
    line in the text before the final [strip]; in a well-formed document it
    is still there in the output when there is visible text both before and
    after it. *)
Theorem blank_line_kept (before after : list line) (k ws v rest : str) :
  let doc := before ++ DefLine k ws v :: after in
  let d := dict (findall_defs (render doc)) in
  let above := render (map (convert_line d) before) in
  let below := render (map (convert_line d) after) in
  wf_doc doc = true ->
  visible above = true -> visible below = true ->
  sub_defs (def_text k ws v ++ nl :: rest) = nl :: sub_defs rest
  /\ converted_file (render doc)
     = Ok (lstrip above ++ [nl; nl] ++ rstrip below).
Proof.
  intros doc d above below Hwf Ha Hb.
  assert (Hl : wf_line (DefLine k ws v) = true).
  { unfold wf_doc, doc in Hwf. rewrite forallb_app in Hwf.
    apply andb_true_iff in Hwf as [_ Hwf]. simpl in Hwf.
    apply andb_true_iff in Hwf as [Hwf _]. exact Hwf. }
  split.
  - rewrite !sub_defs_from. unfold strip_defs_from.
    pose proof (defs_from_wf_line (DefLine k ws v) (nl :: rest) Hl eq_refl)
      as Hd.
    cbn [render_line line_pieces] in Hd.
    rewrite Hd, defs_from_newline. reflexivity.
  - pose proof (findall_wf_doc doc Hwf) as Hfind.
    assert (Hdefs : defs_of doc ≠ []).
    { unfold doc, defs_of. rewrite omap_app. simpl.
      intros E. apply app_eq_nil in E as [_ E]. discriminate. }
    destruct (wf_conversion doc Hwf Hdefs) as (_ & _ & ->). f_equal.
    unfold above, below, d. rewrite Hfind.
    set (d' := dict (defs_of doc)) in *.
    assert (Hbefore : before ≠ []).
    { intros ->. subst above. simpl in Ha. discriminate. }
    assert (Hafter : after ≠ []).
    { intros ->. subst below. simpl in Hb. discriminate. }
    unfold convert. fold d'. unfold doc. rewrite map_app. cbn [map].
    unfold render. rewrite map_app. cbn [map].
    rewrite unlines_app;
      [|destruct before; [congruence|discriminate]|discriminate].
    change (render_line (convert_line d' (DefLine k ws v))) with (@nil char).
    destruct (map render_line (map (convert_line d') after)) as [|x xs] eqn:Hx.
    { destruct after; [congruence|discriminate]. }
    rewrite unlines_cons. simpl app at 2.
    apply (strip_middle _ [nl; nl]).
    + subst above. unfold d in Ha. rewrite Hfind in Ha. exact Ha.
    + subst below. unfold d in Hb. rewrite Hfind in Hb.
      unfold render in Hb. fold d' in Hb. rewrite Hx in Hb. exact Hb.
Qed.

Lemma blank_line_kept_witness :
  let doc := [Prose [Text (py "intro "); Ref (py "A") (py "a")];
              DefLine (py "a") (py " ") (py "https://a.example");
              Prose [Text (py "outro")]] in
  render doc = py "intro [A][a]
[a]: https://a.example
outro"
  /\ sub_defs (py "[a]: https://a.example
outro") = nl :: sub_defs (py "outro")
  /\ converted_file (render doc) = Ok (py "intro [A](https://a.example)

outro").
Proof.
  intros doc. split; [vm_compute; reflexivity|].
  apply (blank_line_kept [Prose [Text (py "intro "); Ref (py "A") (py "a")]]
           [Prose [Text (py "outro")]]
           (py "a") (py " ") (py "https://a.example") (py "outro"));
    vm_compute; reflexivity.
Defined.

(** C9 as stated fails: the empty line left by a definition that has only
    definitions or blank lines after it is removed by the final [strip]. *)
Lemma blank_line_stripped :
  let content := py "intro
[a]: x
[b]: y" in
  sub_defs content = py "intro

"
  /\ converted_file content = Ok (py "intro")
  /\ nl ∉ py "intro".
Proof.
  intros content. split; [vm_compute; reflexivity|].
  split; [vm_compute; reflexivity|]. not_in_literal.
Qed.

(** * Further properties of the conversion *)

(** ** The output is stripped *)

Lemma lstrip_visible s : lstrip s = [] \/ starts_visible (lstrip s) = true.
Proof.
  induction s as [|c s IH]; [left; reflexivity|]. simpl.
  destruct (is_space c) eqn:Hc; [exact IH|].
  right. simpl. rewrite Hc. reflexivity.
Qed.

Lemma lstrip_id s : starts_visible s = true -> lstrip s = s.
Proof.
  destruct s as [|c s]; [discriminate|]. simpl. intros H.
  apply negb_true_iff in H. rewrite H. reflexivity.
Qed.

Lemma rstrip_head c s :
  is_space c = false -> exists s', rstrip (c :: s) = c :: s'.
Proof.
  intros Hc. destruct (rstrip_prefix (c :: s)) as (ws & Heq & Hws).
  destruct (rstrip (c :: s)) as [|d s'] eqn:Hr.
  - simpl in Heq. subst ws. inversion Hws; subst. congruence.
  - injection Heq as <- _. exists s'. reflexivity.
Qed.

Lemma strip_shape s :
  strip s = [] \/
  (starts_visible (strip s) = true /\ starts_visible (rev (strip s)) = true).
Proof.
  unfold strip. destruct (lstrip_visible s) as [->|Hl]; [left; reflexivity|].
  destruct (lstrip s) as [|c l] eqn:E; [discriminate|].
  simpl in Hl. apply negb_true_iff in Hl.
  destruct (rstrip_head c l Hl) as [s' Hs']. right. split.
  - rewrite Hs'. simpl. rewrite Hl. reflexivity.
  - unfold rstrip. rewrite rev_involutive.
    destruct (lstrip_visible (rev (c :: l))) as [Hn|Hv]; [|exact Hv].
    unfold rstrip in Hs'. rewrite Hn in Hs'. discriminate.
Qed.

Lemma strip_id s :
  starts_visible s = true -> starts_visible (rev s) = true -> strip s = s.
Proof.
  intros H1 H2. unfold strip, rstrip. rewrite (lstrip_id s H1).
  rewrite (lstrip_id (rev s) H2). apply rev_involutive.
Qed.

(** X1: the text that [process_file] writes has no whitespace at either
    end (so it does not end with a newline), and stripping it again changes
    nothing. *)
Theorem written_text_stripped (content u : str) :
  process_file content = Ok (Written u) ->
  strip u = u
  /\ (u = [] \/
      (starts_visible u = true /\ starts_visible (rev u) = true)).
Proof.
  intros H. apply process_file_written in H as [_ ->].
  destruct (strip_shape (sub_defs
              (rewrite_links (dict (findall_defs content)) content)))
    as [E|[H1 H2]].
  - rewrite E. split; [reflexivity|left; reflexivity].
  - split; [apply strip_id; assumption|right; split; assumption].
Qed.

Lemma written_text_stripped_witness :
  let content := py "
  See [OpenAI][openai-ref] for details.

[openai-ref]: https://openai.com
" in
  let u := py "See [OpenAI](https://openai.com) for details." in
  process_file content = Ok (Written u)
  /\ strip u = u
  /\ (u = [] \/
      (starts_visible u = true /\ starts_visible (rev u) = true)).
Proof.
  intros content u. split; [vm_compute; reflexivity|].
  apply (written_text_stripped content u). vm_compute. reflexivity.
Defined.

(** ** What the dictionary holds *)

Lemma ws_target_shape s v rest :
  ws_target s = Some (v, rest) -> starts_visible v = true \/ all_space v.
Proof.
  revert v rest. induction s as [|c s IH]; intros v rest; simpl.
  - intros H. apply target_eol_Some in H as (E & Hv & _).
    destruct v; [congruence|discriminate].
  - destruct (is_space c) eqn:Hc.
    + destruct (ws_target s) as [r|] eqn:Hw.
      * intros [= ->]. eapply IH. reflexivity.
      * intros H. apply target_eol_Some in H as (E & Hv & Hnl & _).
        apply ws_target_None in Hw. right.
        destruct v as [|d v]; [congruence|]. injection E as <- E.
        destruct v as [|e v].
        -- constructor; [exact Hc|constructor].
        -- exfalso. subst s. inversion Hw; subst. apply Hnl.
           apply elem_of_cons. right. apply elem_of_cons. left. reflexivity.
    + intros H. apply target_eol_Some in H as (E & Hv & _).
      destruct v as [|d v]; [congruence|]. injection E as <- _.
      left. simpl. rewrite Hc. reflexivity.
Qed.

Lemma match_def_shape s k v rest :
  match_def s = Some ((k, v), rest) -> starts_visible v = true \/ all_space v.
Proof.
  unfold match_def. destruct (expect lbracket s) as [s1|]; [simpl|discriminate].
  destruct (span not_rbracket s1) as [key s2].
  destruct key as [|k0 key]; [discriminate|].
  destruct (expect rbracket s2) as [s3|]; [simpl|discriminate].
  destruct (expect colon s3) as [s4|]; [simpl|discriminate].
  destruct (ws_target s4) as [[v' rest']|] eqn:Hw; [simpl|discriminate].
  intros [= <- <- <-]. exact (ws_target_shape _ _ _ Hw).
Qed.

Lemma defs_hits_upto n :
  forall s b, (length s <= n)%nat -> Forall (def_hit_in s) (defs_from b s).
Proof.
  induction n as [|n IH]; intros s b Hlen.
  - destruct s; [|simpl in Hlen; lia]. rewrite defs_from_nil. constructor.
  - destruct (pat_def b s) as [[[k v] rest]|] eqn:Hp.
    + destruct b; [simpl in Hp|discriminate].
      pose proof (pat_def_shrinks true _ _ _ Hp) as Hshort.
      pose proof (match_def_shape _ _ _ _ Hp) as Hshape.
      destruct (defs_from_hit _ _ _ _ Hp) as (ws' & Hs & Hd).
      destruct (match_def_Some _ _ _ _ Hp)
        as (ws & Hs2 & Hk & Hrb & Hws & Hv & Hnl & _).
      assert (ws' = ws) as ->.
      { rewrite Hs in Hs2. apply app_inv_tail in Hs2.
        unfold def_text in Hs2. apply app_inv_head in Hs2.
        apply app_inv_head in Hs2. apply app_inv_head in Hs2.
        apply app_inv_tail in Hs2. exact Hs2. }
      rewrite Hd. constructor.
      * exists ws. simpl. split; [reflexivity|].
        split; [rewrite Hs; exists [], rest; reflexivity|]. tauto.
      * eapply Forall_impl; [apply (IH rest false); lia|].
        intros [c|m]; [trivial|]. simpl.
        intros (ws0 & H0 & Hin & Hrest). exists ws0.
        split; [exact H0|]. split; [|exact Hrest].
        rewrite Hs. apply infix_app_l. exact Hin.
    + destruct s as [|c s]; [rewrite defs_from_nil; constructor|].
      rewrite defs_from_miss by exact Hp. constructor; [exact I|].
      eapply Forall_impl; [apply IH; simpl in Hlen; lia|].
      intros [c'|m]; [trivial|]. simpl.
      intros (ws0 & H0 & Hin & Hrest). exists ws0.
      split; [exact H0|]. split; [|exact Hrest].
      apply (infix_app_l _ _ [c]). exact Hin.
Qed.

Lemma findall_entry b s k v :
  (k, v) ∈ findall_from b s ->
  exists ws,
    infix (def_text k ws v) s /\ all_space ws
    /\ k ≠ [] /\ (rbracket ∉ k) /\ v ≠ [] /\ (nl ∉ v)
    /\ (starts_visible v = true \/ all_space v).
Proof.
  unfold findall_from, groups_of. intros H.
  apply list_elem_of_omap in H. destruct H as (p & Hp & Hkv).
  pose proof (defs_hits_upto (length s) s b (Nat.le_refl _)) as Hall.
  rewrite Forall_forall in Hall. specialize (Hall p Hp).
  destruct p as [c|m]; [discriminate|]. injection Hkv as <- <-.
  destruct Hall as (ws & H0 & Hin & Hrest). exists ws.
  rewrite <- H0. split; [exact Hin|exact Hrest].
Qed.

Lemma table_entries_lookup (content k v : str) :
  dict (findall_defs content) !! k = Some v ->
  exists ws, infix (def_text k ws v) content.
Proof.
  intros H. apply dict_lookup_Some in H.
  destruct (findall_entry true _ _ _ H) as (ws & Hin & _).
  exists ws. exact Hin.
Qed.

(** X2: every entry of the dictionary comes from the document: the text
    [[key]:], whitespace, [target] occurs in it.  The key is not empty and
    has no closing bracket; the target is not empty, lies on one line, and
    starts with a character that is not whitespace unless it is whitespace
    only. *)
Theorem table_entries_from_document (content k v : str) :
  dict (findall_defs content) !! k = Some v ->
  exists ws,
    infix (def_text k ws v) content /\ all_space ws
    /\ k ≠ [] /\ (rbracket ∉ k) /\ v ≠ [] /\ (nl ∉ v)
    /\ (starts_visible v = true \/ all_space v).
Proof.
  intros H. apply dict_lookup_Some in H. exact (findall_entry true _ _ _ H).
Qed.

Lemma table_entries_from_document_witness :
  let content := py "Text
[a]:   https://a.example
[b]: 	" in
  dict (findall_defs content) !! py "b" = Some [9]
  /\ exists ws,
    infix (def_text (py "b") ws [9]) content /\ all_space ws
    /\ py "b" ≠ [] /\ (rbracket ∉ py "b") /\ [9] ≠ [] /\ (nl ∉ [9])
    /\ (starts_visible [9] = true \/ all_space [9]).
Proof.
  intros content. split; [vm_compute; reflexivity|].
  apply (table_entries_from_document content). vm_compute. reflexivity.
Defined.

(** ** The characters of the output *)

Lemma infix_elem (c : char) (m s : str) : infix m s -> c ∈ m -> c ∈ s.
Proof.
  intros (a & b & ->) H. apply elem_of_app. right.
  apply elem_of_app. left. exact H.
Qed.

Lemma defs_removed_elem (c : char) s s' :
  defs_removed s s' -> c ∈ s' -> c ∈ s.
Proof.
  intros H. induction H as [|d s s' _ IH|k ws v s s' _ _ _ _ _ _ IH]; intros Hc.
  - exact Hc.
  - apply elem_of_cons in Hc as [->|Hc]; apply elem_of_cons;
      [left; reflexivity|right; exact (IH Hc)].
  - apply elem_of_app. right. exact (IH Hc).
Qed.

Lemma inline_link_elem (c : char) t url :
  c ∈ inline_link t url ->
  c ∈ url \/ c ∈ ref_link t [] \/ c = lparen \/ c = rparen.
Proof.
  unfold inline_link, ref_link. intros H.
  apply elem_of_app in H as [H|H].
  { right. left. apply elem_of_app. left. exact H. }
  apply elem_of_app in H as [H|H].
  { right. left. apply elem_of_app. right. apply elem_of_app. left. exact H. }
  apply elem_of_app in H as [H|H].
  { apply elem_of_cons in H as [->|H].
    - right. left. apply elem_of_app. right. apply elem_of_app. right.
      apply elem_of_cons. left. reflexivity.
    - apply list_elem_of_singleton in H. right. right. left. exact H. }
  apply elem_of_app in H as [H|H]; [left; exact H|].
  apply list_elem_of_singleton in H. right. right. right. exact H.
Qed.

Lemma ref_link_elem_key (c : char) t k : c ∈ ref_link t [] -> c ∈ ref_link t k.
Proof.
  unfold ref_link. intros H.
  apply elem_of_app in H as [H|H]; [apply elem_of_app; left; exact H|].
  apply elem_of_app in H as [H|H].
  { apply elem_of_app. right. apply elem_of_app. left. exact H. }
  apply elem_of_app in H as [H|H].
  { apply elem_of_app. right. apply elem_of_app. right.
    apply elem_of_app. left. exact H. }
  simpl in H. apply elem_of_app. right. apply elem_of_app. right.
  apply elem_of_app. right. apply elem_of_app. right. exact H.
Qed.

Lemma links_rewritten_elem (d : gmap str str) (content : str) (c : char) s s' :
  (forall k url, d !! k = Some url -> c ∈ url -> c ∈ content) ->
  links_rewritten d s s' -> c ∈ s' ->
  c ∈ s \/ c ∈ content \/ c = lparen \/ c = rparen.
Proof.
  intros Hd H.
  induction H as [|x s s' _ IH|t k url s s' _ _ _ _ Hk _ IH]; intros Hc.
  - left. exact Hc.
  - apply elem_of_cons in Hc as [->|Hc].
    + left. apply elem_of_cons. left. reflexivity.
    + destruct (IH Hc) as [H|H]; [|right; exact H].
      left. apply elem_of_cons. right. exact H.
  - apply elem_of_app in Hc as [Hc|Hc].
    + apply inline_link_elem in Hc as [Hc|[Hc|Hc]].
      * right. left. exact (Hd _ _ Hk Hc).
      * left. apply elem_of_app. left. apply ref_link_elem_key. exact Hc.
      * right. right. exact Hc.
    + destruct (IH Hc) as [H|H]; [|right; exact H].
      left. apply elem_of_app. right. exact H.
Qed.

Lemma rewritten_chars (content : str) (c : char) :
  c ∈ sub_defs (rewrite_links (dict (findall_defs content)) content) ->
  c ∈ content \/ c = lparen \/ c = rparen.
Proof.
  intros Hc. rewrite sub_defs_from in Hc.
  apply (defs_removed_elem c _ _ (strip_defs_sound true _)) in Hc.
  assert (Hd : forall k url,
             dict (findall_defs content) !! k = Some url ->
             c ∈ url -> c ∈ content).
  { intros k url Hk Hurl.
    destruct (table_entries_lookup content k url Hk) as (ws & Hin).
    apply (infix_elem c _ _ Hin). unfold def_text.
    apply elem_of_app. right. apply elem_of_app. right.
    apply elem_of_app. right. apply elem_of_app. right. exact Hurl. }
  destruct (links_rewritten_elem (dict (findall_defs content)) content c
              content _ Hd (rewrite_links_sound _ content) Hc) as [H|H];
    [left; exact H|exact H].
Qed.

(** X3: the conversion adds no character of its own except the two
    parentheses of the inline links: every character of the text written is
    a character of the text read, ["("] or [")"]. *)
Theorem only_parentheses_added (content u : str) (c : char) :
  process_file content = Ok (Written u) ->
  c ∈ u ->
  c ∈ content \/ c = lparen \/ c = rparen.
Proof.
  intros H Hc. apply process_file_written in H as [_ ->].
  apply (infix_elem c _ _ (strip_infix _)) in Hc.
  exact (rewritten_chars content c Hc).
Qed.

Lemma only_parentheses_added_witness :
  let content := py "See [OpenAI][openai-ref] for details.

[openai-ref]: https://openai.com" in
  let u := py "See [OpenAI](https://openai.com) for details." in
  process_file content = Ok (Written u) /\ lparen ∈ u
  /\ (lparen ∈ content \/ lparen = lparen \/ lparen = rparen).
Proof.
  intros content u.
  assert (H1 : process_file content = Ok (Written u))
    by (vm_compute; reflexivity).
  assert (H2 : lparen ∈ u).
  { apply (infix_elem lparen [lparen] u); [|apply list_elem_of_singleton; reflexivity].
    exists (py "See [OpenAI]"), (py "https://openai.com) for details.").
    vm_compute. reflexivity. }
  split; [exact H1|]. split; [exact H2|].
  exact (only_parentheses_added content u lparen H1 H2).
Defined.

(** ** Documents that leave nothing *)

Lemma lstrip_all_space s : all_space s -> lstrip s = [].
Proof.
  intros H. induction H as [|c s Hc _ IH]; [reflexivity|].
  simpl. rewrite Hc. exact IH.
Qed.

Lemma strip_all_space s : all_space s -> strip s = [].
Proof. intros H. unfold strip. rewrite lstrip_all_space by exact H. reflexivity. Qed.

Lemma all_space_unlines ls : Forall all_space ls -> all_space (unlines ls).
Proof.
  intros H. induction H as [|l ls Hl _ IH]; [constructor|].
  destruct ls as [|l' ls]; [exact Hl|]. rewrite unlines_cons.
  apply Forall_app. split; [exact Hl|]. constructor; [reflexivity|exact IH].
Qed.

Lemma blank_seg_resolved d s :
  blank_seg s = true -> all_space (render_seg (resolve_seg d s)).
Proof.
  destruct s as [t|t k|t u]; simpl; try discriminate.
  intros H. apply all_space_spec. exact H.
Qed.

Lemma blank_line_converted d l :
  blank_line l = true -> all_space (render_line (convert_line d l)).
Proof.
  destruct l as [k ws v|segs]; simpl; intros H; [constructor|].
  induction segs as [|s segs IH]; [constructor|]. simpl in *.
  apply andb_true_iff in H as [Hs H]. apply Forall_app.
  split; [apply blank_seg_resolved; exact Hs|exact (IH H)].
Qed.

(** X4: a well-formed document with at least one definition and otherwise
    only whitespace is converted to the empty text. *)
Theorem only_definitions_give_empty (doc : list line) :
  wf_doc doc = true ->
  forallb blank_line doc = true ->
  defs_of doc ≠ [] ->
  process_file (render doc) = Ok (Written []).
Proof.
  intros Hwf Hblank Hdefs.
  destruct (wf_conversion doc Hwf Hdefs) as (_ & -> & _).
  f_equal. f_equal. apply strip_all_space. unfold render, convert.
  apply all_space_unlines. rewrite !Forall_map. rewrite Forall_forall.
  intros l Hl. apply blank_line_converted.
  rewrite forallb_forall in Hblank. apply Hblank.
  apply list_elem_of_In. exact Hl.
Qed.

Lemma only_definitions_give_empty_witness :
  let doc := [DefLine (py "a") (py " ") (py "https://a.example");
              Prose [Text (py "  ")];
              DefLine (py "b") (py " ") (py "https://b.example");
              Prose []] in
  render doc = py "[a]: https://a.example
  
[b]: https://b.example
"
  /\ process_file (render doc) = Ok (Written []).
Proof.
  intros doc. split; [vm_compute; reflexivity|].
  apply only_definitions_give_empty; [vm_compute; reflexivity..|].
  vm_compute. discriminate.
Defined.

(** * Properties of the script *)

(** ** The name of the output file *)

Lemma startswith_spec s p :
  Script.startswith s p = true <-> exists y, s = p ++ y.
Proof.
  revert s. induction p as [|c p IH]; intros s; simpl.
  - split; [intros _; exists s; reflexivity|intros _; destruct s; reflexivity].
  - destruct s as [|d s]; simpl.
    + split; [discriminate|intros [y H]; discriminate].
    + rewrite andb_true_iff, N.eqb_eq, IH. split.
      * intros [-> [y ->]]. exists y. reflexivity.
      * intros [y [= -> ->]]. split; [reflexivity|exists y; reflexivity].
Qed.

Lemma endswith_spec s p :
  Script.endswith s p = true <-> exists x, s = x ++ p.
Proof.
  unfold Script.endswith. rewrite startswith_spec. split.
  - intros [y H]. exists (rev y).
    rewrite <- (rev_involutive s), H, rev_app_distr, rev_involutive.
    reflexivity.
  - intros [x ->]. exists (rev x). apply rev_app_distr.
Qed.





Lemma path_name_md x : Script.path_name (x ++ Script.md_ext) = x ++ Script.md_ext.
Proof.
  unfold Script.path_name. rewrite bool_decide_eq_false_2; [reflexivity|].
  intros H. apply (f_equal length) in H. rewrite length_app in H.
  change (length Script.md_ext) with 3%nat in H. simpl in H. lia.
Qed.





Lemma stem_suffix name : Script.stem name ++ Script.suffix name = name.
Proof.
  unfold Script.stem, Script.suffix.
  destruct (Script.rfind Script.dot name) as [i|]; [|apply app_nil_r].
  destruct (Script.has_suffix name i); [apply take_drop|apply app_nil_r].
Qed.

Lemma output_name_length p :
  length (Script.output_name p) = (length (Script.path_name p) + 10)%nat.
Proof.
  unfold Script.output_name. cbv zeta.
  rewrite <- (stem_suffix (Script.path_name p)) at 3.
  rewrite !length_app. change (length Script.converted_tag) with 10%nat. lia.
Qed.

Lemma output_name_neq p : Script.output_name p ≠ p.
Proof.
  intros H. apply (f_equal length) in H. rewrite output_name_length in H.
  unfold Script.path_name in H. destruct (bool_decide (p = [Script.dot])) eqn:E.
  - apply bool_decide_eq_true in E. subst p. simpl in H. lia.
  - lia.
Qed.



(** ** A run of [main] *)

Lemma isfile_spec w p : Script.isfile w p = true <-> Script.files w !! p ≠ None.
Proof.
  unfold Script.isfile. rewrite bool_decide_eq_true.
  destruct (Script.files w !! p); split; intros H; try congruence; eauto.
  destruct H as [x H]. discriminate.
Qed.

Lemma validate_file_eq w p :
  Script.validate_file w p =
  match Script.files w !! p with
  | None => Script.Throw (Script.FileNotFoundError p)
  | Some _ =>
      if Script.endswith p Script.md_ext then Script.Return tt
      else Script.Throw (Script.ValueError p)
  end.
Proof.
  unfold Script.validate_file, Script.isfile.
  destruct (Script.files w !! p) as [raw|].
  - rewrite bool_decide_eq_true_2 by eauto. simpl.
    destruct (Script.endswith p Script.md_ext); reflexivity.
  - rewrite bool_decide_eq_false_2; [reflexivity|].
    intros [x H]. discriminate.
Qed.

Lemma endswith_md_name p :
  Script.endswith p Script.md_ext = true -> Script.path_name p = p /\ p ≠ [].
Proof.
  intros H. apply endswith_spec in H as [x ->]. split; [apply path_name_md|].
  destruct x; discriminate.
Qed.

Lemma main_valid w p raw :
  Script.files w !! p = Some raw ->
  Script.endswith p Script.md_ext = true ->
  Script.main w p =
  (Script.World (run_files (Script.files w) p raw)
     (run_log (Script.log w) p raw)
     (run_stdout (Script.stdout w) p raw), O).
Proof.
  intros Hraw Hmd. destruct (endswith_md_name p Hmd) as [Hname Hne].
  unfold Script.main. rewrite validate_file_eq, Hraw, Hmd.
  unfold Script.duplicate_file, Script.with_name. rewrite Hname.
  destruct p as [|c0 p0] eqn:Ep; [congruence|]. rewrite <- Ep in *.
  unfold Script.copy. rewrite Hraw.
  unfold Script.process_file, Script.read_text. cbn [Script.files].
  rewrite lookup_insert_ne by apply output_name_neq. rewrite Hraw.
  unfold Script.convert_text. rewrite process_file_eq.
  unfold run_files, run_log, run_stdout.
  destruct (findall_defs (Script.universal_newlines raw)) as [|d ds].
  - unfold Script.print. simpl. rewrite <- app_assoc. reflexivity.
  - unfold Script.log_changes, Script.write_text, Script.print. simpl.
    rewrite insert_insert_eq. rewrite <- app_assoc. reflexivity.
Qed.

Lemma main_invalid w p :
  Script.files w !! p = None \/ Script.endswith p Script.md_ext = false ->
  Script.main w p =
  (Script.print
     (Script.ErrorMessage
        (match Script.files w !! p with
         | None => Script.FileNotFoundError p
         | Some _ => Script.ValueError p
         end)) w, 1%nat).
Proof.
  intros H. unfold Script.main. rewrite validate_file_eq.
  destruct (Script.files w !! p) as [raw|]; [|reflexivity].
  destruct H as [H|H]; [discriminate|]. rewrite H. reflexivity.
Qed.

(** X7: when the file does not exist or its name does not end in [.md],
    [main] exits with status 1 after printing the error, and leaves the
    files and the log as they were.  A missing file is reported as such
    whatever its name; the extension is only looked at for a file that
    exists. *)
Theorem main_rejects (w : Script.world) (p : str) :
  Script.files w !! p = None \/ Script.endswith p (py ".md") = false ->
  exists e,
    Script.main w p = (Script.print (Script.ErrorMessage e) w, 1%nat)
    /\ Script.files (Script.main w p).1 = Script.files w
    /\ Script.log (Script.main w p).1 = Script.log w
    /\ (e = Script.FileNotFoundError p <-> Script.files w !! p = None)
    /\ (e = Script.ValueError p <-> Script.files w !! p ≠ None).
Proof.
  intros H. rewrite (main_invalid w p H).
  eexists. split; [reflexivity|]. split; [reflexivity|]. split; [reflexivity|].
  destruct (Script.files w !! p) as [raw|]; split; split; intros E;
    congruence.
Qed.

Lemma main_rejects_witness :
  let w := Script.World {[ py "notes.txt" := py "hello" ]} [] [] in
  Script.main w (py "notes.txt")
  = (Script.print (Script.ErrorMessage (Script.ValueError (py "notes.txt"))) w,
     1%nat)
  /\ Script.main w (py "missing.txt")
     = (Script.print
          (Script.ErrorMessage (Script.FileNotFoundError (py "missing.txt"))) w,
        1%nat).
Proof.
  intros w. split.
  - destruct (main_rejects w (py "notes.txt")) as (e & H & _ & _ & _ & He).
    + right. reflexivity.
    + rewrite H. f_equal. f_equal. f_equal. apply He. vm_compute. discriminate.
  - destruct (main_rejects w (py "missing.txt")) as (e & H & _ & _ & He & _).
    + left. vm_compute. reflexivity.
    + rewrite H. f_equal. f_equal. f_equal. apply He. vm_compute. reflexivity.
Defined.









Lemma universal_newlines_no_cr_upto n :
  forall s, (length s <= n)%nat -> Script.cr ∉ Script.universal_newlines s.
Proof.
  induction n as [|n IH]; intros s Hlen.
  - destruct s; [apply not_elem_of_nil|simpl in Hlen; lia].
  - destruct s as [|c s]; [apply not_elem_of_nil|]. simpl in *.
    destruct (N.eqb_spec c Script.cr) as [->|Hc].
    + apply not_elem_of_cons. split; [discriminate|].
      destruct s as [|d s]; [apply not_elem_of_nil|]. simpl in Hlen.
      destruct (d =? nl); apply IH; simpl; lia.
    + apply not_elem_of_cons. split; [congruence|]. apply IH. lia.
Qed.

Lemma universal_newlines_no_cr s : Script.cr ∉ Script.universal_newlines s.
Proof. apply (universal_newlines_no_cr_upto (length s)). reflexivity. Qed.

(** X11: the text that [process_file] reads has no carriage return, line
    ends of the forms CR LF and CR being read as LF, and neither has the
    text it writes: a converted file has LF line ends only. *)
Theorem written_text_has_no_cr (raw u : str) :
  process_file (Script.universal_newlines raw) = Ok (Written u) ->
  (Script.cr ∉ Script.universal_newlines raw) /\ (Script.cr ∉ u).
Proof.
  intros H. split; [apply universal_newlines_no_cr|]. intros Hc.
  apply process_file_written in H as [_ ->].
  apply (infix_elem _ _ _ (strip_infix _)) in Hc.
  apply rewritten_chars in Hc as [Hc|[Hc|Hc]]; try discriminate.
  exact (universal_newlines_no_cr raw Hc).
Qed.

Lemma written_text_has_no_cr_witness :
  let raw := [91; 97; 93; 58; 32; 120; 13; 10; 91; 116; 93; 91; 97; 93; 13] in
  process_file (Script.universal_newlines raw) = Ok (Written (py "[t](x)"))
  /\ (Script.cr ∉ Script.universal_newlines raw) /\ (Script.cr ∉ py "[t](x)").
Proof.
  intros raw. split; [vm_compute; reflexivity|].
  apply (written_text_has_no_cr raw). vm_compute. reflexivity.
Defined.




(** X13: what the output file holds before the run has no effect on the
    files after it: [duplicate_file] overwrites it without notice. *)
Theorem main_overwrites (w : Script.world) (p raw junk : str) :
  Script.files w !! p = Some raw ->
  Script.endswith p (py ".md") = true ->
  Script.files
    (Script.main (Script.write_text w (Script.output_name p) junk) p).1
  = Script.files (Script.main w p).1.
Proof.
  intros Hraw Hmd. rewrite (main_valid w p raw Hraw Hmd).
  rewrite (main_valid _ p raw); [|simpl|exact Hmd].
  - cbn [fst Script.files Script.write_text]. unfold run_files.
    destruct (findall_defs (Script.universal_newlines raw));
      apply insert_insert_eq.
  - rewrite lookup_insert_ne; [exact Hraw|]. apply output_name_neq.
Qed.

Lemma main_overwrites_witness :
  let w := Script.World {[ py "c.md" := py "plain
" ]} [] [] in
  Script.files (Script.main (Script.write_text w (py "c-converted.md")
                               (py "old text")) (py "c.md")).1
  = Script.files (Script.main w (py "c.md")).1.
Proof.
  intros w.
  exact (main_overwrites w (py "c.md") (py "plain
") (py "old text") eq_refl eq_refl).
Defined.

(** ** Looking a key up *)

Lemma dict_lookup_elem (pairs : list (str * str)) (k v : str) :
  (k, v) ∈ pairs -> exists url, dict pairs !! k = Some url /\ (k, url) ∈ pairs.
Proof.
  induction pairs as [|[k' v'] pairs IH] using rev_ind; intros Hin.
  - inversion Hin.
  - rewrite dict_snoc. destruct (decide (k' = k)) as [->|Hne].
    + exists v'. rewrite lookup_insert_eq. split; [reflexivity|].
      apply elem_of_app. right. apply list_elem_of_singleton. reflexivity.
    + rewrite lookup_insert_ne by exact Hne.
      apply elem_of_app in Hin as [Hin|Hin].
      * destruct (IH Hin) as (url & Hurl & Hin'). exists url.
        split; [exact Hurl|]. apply elem_of_app. left. exact Hin'.
      * apply list_elem_of_singleton in Hin. congruence.
Qed.

(** X14: a key is looked up as it is written, without folding case or
    trimming: [replace_link] makes an inline link exactly when the walk for
    the definition pattern has found a definition with that very key, and
    the target it writes is one defined for it; otherwise it returns the
    matched text. *)
Theorem replace_link_exact_key (content : str) (m : match_obj) :
  (forall v, (group2 m, v) ∈ findall_defs content ->
     exists url,
       (group2 m, url) ∈ findall_defs content
       /\ replace_link (dict (findall_defs content)) m
          = Ok (inline_link (group1 m) url))
  /\ ((forall v, (group2 m, v) ∉ findall_defs content) ->
      replace_link (dict (findall_defs content)) m = Ok (group0 m)).
Proof.
  rewrite replace_link_ok. unfold resolve. split.
  - intros v Hin. destruct (dict_lookup_elem _ _ _ Hin) as (url & Hurl & Hin').
    exists url. rewrite Hurl. split; [exact Hin'|reflexivity].
  - intros Hnone.
    destruct (dict (findall_defs content) !! group2 m) as [url|] eqn:Hurl;
      [|reflexivity].
    apply dict_lookup_Some in Hurl. exfalso. exact (Hnone url Hurl).
Qed.

Lemma replace_link_exact_key_witness :
  let content := py "[Key]: https://k.example" in
  (exists url,
     (py "Key", url) ∈ findall_defs content
     /\ replace_link (dict (findall_defs content))
          (MatchObj (py "[t][Key]") (py "t") (py "Key"))
        = Ok (inline_link (py "t") url))
  /\ replace_link (dict (findall_defs content))
       (MatchObj (py "[t][key]") (py "t") (py "key"))
     = Ok (py "[t][key]").
Proof.
  intros content. split.
  - apply (proj1 (replace_link_exact_key content
                    (MatchObj (py "[t][Key]") (py "t") (py "Key")))
             (py "https://k.example")).
    vm_compute. apply elem_of_cons. left. reflexivity.
  - apply (proj2 (replace_link_exact_key content
                    (MatchObj (py "[t][key]") (py "t") (py "key")))).
    intros v H. vm_compute in H. apply elem_of_cons in H as [H|H].
    + discriminate.
    + inversion H.
Defined.
